(** * Memristor logic-gate demo: the mMPU simulator and the crossbar read model

    A shallow embedding of the two simulation engines of the demo:

    - the instruction-driven logic-state simulator ([createMPUSimulator],
      the gate catalog [GATES], the interpreter loop of [runGate] and the
      truth-table helper [computeTruth]);
    - the crossbar electrical read model (the recompute effect of [App] and
      the [sim] memo of [CrossbarAdvanced]).

    JavaScript numbers are IEEE-754 binary64 values.  The electrical model
    computes with them, so it is embedded over Rocq's primitive [float]
    (the same format, round-to-nearest-even).  The logic-state engine only
    ever stores and compares the integers 0 and 1; there a number is a [Z].
    A [Map] keyed by template strings is a [gmap string _]. *)

From Stdlib Require Import ZArith Floats Ascii.
From stdpp Require Import gmap strings pretty list fin_maps.

Local Open Scope Z_scope.

(** Decimal literals such as [0.35] denote the nearest binary64 value, as
    they do in JavaScript. *)
#[local] Set Warnings "-inexact-float".

(** ** JavaScript values and truthiness *)

(** The values a caller may hand to [setState]. *)
Inductive jsval : Type :=
  | JUndefined
  | JNull
  | JBool (b : bool)
  | JNum (x : float)
  | JBigInt (n : Z)
  | JStr (s : string)
  | JSymbol
  | JObj.

(** ToBoolean: [undefined], [null], [false], [0], [-0], [NaN], [0n] and the
    empty string are falsy, everything else is truthy. *)
Definition truthy (v : jsval) : bool :=
  match v with
  | JUndefined | JNull => false
  | JBool b => b
  | JNum x => negb (PrimFloat.is_zero x || PrimFloat.is_nan x)
  | JBigInt n => negb (n =? 0)
  | JStr s => negb (String.eqb s "")
  | JSymbol | JObj => true
  end.

(** ToBoolean on an integer-valued number. *)
Definition truthyZ (z : Z) : bool := negb (z =? 0).

(** [x || y] and [x && y] return one of their operands. *)
Definition js_or (x y : Z) : Z := if truthyZ x then x else y.
Definition js_and (x y : Z) : Z := if truthyZ x then y else x.

(** [x ^ y]: both operands go through ToInt32 (wrap to the signed 32-bit
    range), the result is their bitwise exclusive or. *)
Definition toInt32 (z : Z) : Z := (z + 2 ^ 31) mod 2 ^ 32 - 2 ^ 31.
Definition js_xor (x y : Z) : Z := Z.lxor (toInt32 x) (toInt32 y).

(** ** The mMPU simulator ([createMPUSimulator]) *)

(** One entry of a cell's history: [{op, t, val}] and, for MNOR, the two
    operand values [a] and [b]. *)
Record hist_entry : Type := HistEntry {
  h_op : string;
  h_t : Z;
  h_val : Z;
  h_operands : option (Z * Z)
}.

(** A stored cell: [{state, history}]. *)
Record memristor : Type := Memristor {
  state : Z;
  history : list hist_entry
}.

(** A coordinate object [{r, c}]. *)
Record coord : Type := Coord {
  coord_r : nat;
  coord_c : nat
}.

Global Instance coord_eq_dec : EqDecision coord.
Proof. solve_decision. Defined.

(** The closure variable [memristors]: a [Map] from cell id to cell. *)
Abbreviation store := (gmap string memristor).

(** A call either returns a value or throws (a [TypeError] from reading a
    property of [undefined]); in both cases the mutations made so far to
    the store stay. *)
Inductive outcome (A : Type) : Type :=
  | Returns (a : A) (s : store)
  | Throws (s : store).
Arguments Returns {A} a s.
Arguments Throws {A} s.

Definition final_store {A} (o : outcome A) : store :=
  match o with
  | Returns _ s => s
  | Throws s => s
  end.

Definition returned {A} (o : outcome A) : option A :=
  match o with
  | Returns a _ => Some a
  | Throws _ => None
  end.

Definition M (A : Type) : Type := store → outcome A.

Global Instance M_ret : MRet M := λ A a s, Returns a s.
Global Instance M_bind : MBind M := λ A B f m s,
  match m s with
  | Returns a s' => f a s'
  | Throws s' => Throws s'
  end.

Definition throw {A} : M A := λ s, Throws s.

(** Reading a property of a value that may be [undefined]. *)
Definition deref {A} (o : option A) : M A :=
  match o with
  | Some a => mret a
  | None => throw
  end.

(** [for (let i = 0; i < n; i++) body(i)] *)
Fixpoint for_each {A} (body : A → M unit) (l : list A) : M unit :=
  match l with
  | [] => mret ()
  | i :: l' => _ ← body i; for_each body l'
  end.
Definition for_range (n : nat) (body : nat → M unit) : M unit :=
  for_each body (seq 0 n).

Module MPU.

(** [`m-${r}-${c}`] *)
Definition makeId (r c : nat) : string :=
  "m-" +:+ pretty r +:+ "-" +:+ pretty c.

Definition fresh : memristor := {| state := 0; history := [] |}.

Definition ensure (r c : nat) : M memristor := λ s,
  let id := makeId r c in
  match s !! id with
  | Some m => Returns m s
  | None => Returns fresh (<[id := fresh]> s)
  end.

(** The writes [m.state = v; m.history.push(e)] through the reference
    [m] that [ensure(r, c)] returned. *)
Definition write (r c : nat) (m : memristor) (v : Z) (e : hist_entry) : M unit :=
  λ s, Returns () (<[makeId r c := {| state := v; history := history m ++ [e] |}]> s).

(** The argument [t] of the mutating operations is the value [Date.now()]
    returns during the call. *)
Definition MNOT (t : Z) (target : option coord) : M Z :=
  tg ← deref target;
  m ← ensure (coord_r tg) (coord_c tg);
  let v := if truthyZ (state m) then 0 else 1 in
  _ ← write (coord_r tg) (coord_c tg) m v (HistEntry "MNOT" t v None);
  mret v.

Definition MNOR (t : Z) (target a b : option coord) : M Z :=
  ca ← deref a;
  cell_a ← ensure (coord_r ca) (coord_c ca);
  let ma := state cell_a in
  cb ← deref b;
  cell_b ← ensure (coord_r cb) (coord_c cb);
  let mb := state cell_b in
  let res := if truthyZ (js_or ma mb) then 0 else 1 in
  tg ← deref target;
  m ← ensure (coord_r tg) (coord_c tg);
  _ ← write (coord_r tg) (coord_c tg) m res (HistEntry "MNOR" t res (Some (ma, mb)));
  mret res.

Definition COM : M unit := mret ().
Definition ISO : M unit := mret ().
Definition JSET : M unit := mret ().
Definition JRES : M unit := mret ().

Definition resetGrid (rows cols : nat) : M unit := λ _,
  for_range rows (λ r, for_range cols (λ c, _ ← ensure r c; mret ())) ∅.

Definition setState (t : Z) (r c : nat) (val : jsval) : M unit :=
  m ← ensure r c;
  let v := if truthy val then 1 else 0 in
  write r c m v (HistEntry "SET" t v None).

Definition getState (r c : nat) : M Z :=
  m ← ensure r c; mret (state m).

Definition snapshot : M (gmap string Z) := λ s, Returns (state <$> s) s.

(** What [getState(r, c)] would return in store [s]. *)
Definition peek (s : store) (r c : nat) : Z :=
  match s !! makeId r c with
  | Some m => state m
  | None => 0
  end.

End MPU.

(** ** The gate catalog ([GATES]) *)

(** The [inputs] state of the app, [{A, B}]; both fields are always one of
    the numbers 0 and 1 when the app sets them. *)
Record inputs : Type := Inputs {
  input_A : Z;
  input_B : Z
}.

(** An instruction [{op, args}]; several catalog entries leave [args] out. *)
Record instruction : Type := Ins {
  op : string;
  args : option (list coord)
}.

Record gate : Type := Gate {
  name : string;
  description : string;
  layoutRows : nat;
  layoutCols : nat;
  instructionSequence : inputs → list instruction;
  (** [compute(sim, inputs)]; the timestamps are those of its [Date.now()]
      calls, in order *)
  compute : (nat → Z) → inputs → M Z
}.

Definition bit (b : bool) : jsval := JNum (if b then 1 else 0)%float.

Module Catalog.
Import MPU.

Definition NOT : gate := {|
  name := "NOT";
  description := "Inverts the input: output = !A";
  layoutRows := 1;
  layoutCols := 3;
  instructionSequence := λ _,
    [ Ins "ISO" (Some []);
      Ins "MNOT" (Some [Coord 0 2]) ];
  compute := λ clock i,
    _ ← setState (clock 0%nat) 0 0 (bit (truthyZ (input_A i)));
    _ ← MNOT (clock 1%nat) (Some (Coord 0 2));
    getState 0 2
|}.

Definition AND : gate := {|
  name := "AND";
  description := "A AND B";
  layoutRows := 1;
  layoutCols := 4;
  instructionSequence := λ _,
    [ Ins "ISO" None;
      Ins "MNOT" (Some [Coord 0 1]);
      Ins "MNOT" (Some [Coord 0 2]);
      Ins "MNOR" (Some [Coord 0 3; Coord 0 1; Coord 0 2]) ];
  compute := λ clock i,
    _ ← setState (clock 0%nat) 0 0 (bit (truthyZ (input_A i)));
    _ ← setState (clock 1%nat) 0 1 (bit (truthyZ (input_B i)));
    let out := truthyZ (js_and (input_A i) (input_B i)) in
    _ ← setState (clock 2%nat) 0 3 (bit out);
    getState 0 3
|}.

Definition OR : gate := {|
  name := "OR";
  description := "A OR B";
  layoutRows := 1;
  layoutCols := 4;
  instructionSequence := λ _,
    [ Ins "ISO" None;
      Ins "MNOR" (Some [Coord 0 3; Coord 0 0; Coord 0 1]);
      Ins "MNOT" (Some [Coord 0 3]) ];
  compute := λ clock i,
    _ ← setState (clock 0%nat) 0 0 (bit (truthyZ (input_A i)));
    _ ← setState (clock 1%nat) 0 1 (bit (truthyZ (input_B i)));
    let out := truthyZ (js_or (input_A i) (input_B i)) in
    _ ← setState (clock 2%nat) 0 3 (bit out);
    getState 0 3
|}.

Definition NAND : gate := {|
  name := "NAND";
  description := "NOT (A AND B)";
  layoutRows := 1;
  layoutCols := 5;
  instructionSequence := λ _,
    [ Ins "ISO" None;
      Ins "MNOT" (Some [Coord 0 1]);
      Ins "MNOT" (Some [Coord 0 2]);
      Ins "MNOR" (Some [Coord 0 3; Coord 0 1; Coord 0 2]);
      Ins "MNOT" (Some [Coord 0 4]) ];
  compute := λ clock i,
    let and := truthyZ (js_and (input_A i) (input_B i)) in
    _ ← setState (clock 0%nat) 0 4 (bit (negb and));
    getState 0 4
|}.

Definition XOR : gate := {|
  name := "XOR";
  description := "(A XOR B)";
  layoutRows := 2;
  layoutCols := 4;
  instructionSequence := λ _,
    [ Ins "ISO" None; Ins "MNOR" None; Ins "MNOT" None; Ins "COM" None ];
  compute := λ clock i,
    let out := truthyZ (js_xor (input_A i) (input_B i)) in
    _ ← setState (clock 0%nat) 0 3 (bit out);
    getState 0 3
|}.

Definition XNOR : gate := {|
  name := "XNOR";
  description := "NOT (A XOR B)";
  layoutRows := 2;
  layoutCols := 4;
  instructionSequence := λ _,
    [ Ins "ISO" None; Ins "MNOR" None; Ins "MNOT" None; Ins "COM" None ];
  compute := λ clock i,
    let out := negb (truthyZ (js_xor (input_A i) (input_B i))) in
    _ ← setState (clock 0%nat) 0 3 (bit out);
    getState 0 3
|}.

End Catalog.

(** What the property read [GATES[key]] evaluates to: an entry of the
    catalog, a member inherited from [Object.prototype] (an object or a
    function that has none of the entry's fields), or [undefined]. *)
Inductive property : Type :=
  | Own (g : gate)
  | Inherited
  | Missing.

Definition object_prototype_keys : list string :=
  [ "constructor"; "__proto__"; "hasOwnProperty"; "isPrototypeOf";
    "propertyIsEnumerable"; "toLocaleString"; "toString"; "valueOf";
    "__defineGetter__"; "__defineSetter__"; "__lookupGetter__";
    "__lookupSetter__" ].

Definition catalog : list (string * gate) :=
  [ ("NOT", Catalog.NOT); ("AND", Catalog.AND); ("OR", Catalog.OR);
    ("NAND", Catalog.NAND); ("XOR", Catalog.XOR); ("XNOR", Catalog.XNOR) ].

Fixpoint assoc {V} (key : string) (l : list (string * V)) : option V :=
  match l with
  | [] => None
  | (k, v) :: l' => if String.eqb key k then Some v else assoc key l'
  end.

Definition GATES (key : string) : property :=
  match assoc key catalog with
  | Some g => Own g
  | None =>
      if bool_decide (key ∈ object_prototype_keys) then Inherited else Missing
  end.

(** ** The truth-table helper ([computeTruth]) *)

(** The helper returns a number, or the string ['-'] for a gate it does not
    know. *)
Inductive truth : Type :=
  | TNum (z : Z)
  | TDash.

Global Instance truth_eq_dec : EqDecision truth.
Proof. solve_decision. Defined.

Definition computeTruth (gate : string) (a b : Z) : truth :=
  if String.eqb gate "NOT" then TNum (if truthyZ a then 0 else 1)
  else if String.eqb gate "AND" then TNum (if truthyZ (js_and a b) then 1 else 0)
  else if String.eqb gate "OR" then TNum (if truthyZ (js_or a b) then 1 else 0)
  else if String.eqb gate "NAND" then TNum (if truthyZ (js_and a b) then 0 else 1)
  else if String.eqb gate "XOR" then TNum (if truthyZ (js_xor a b) then 1 else 0)
  else if String.eqb gate "XNOR" then TNum (if truthyZ (js_xor a b) then 0 else 1)
  else TDash.

(** ** The crossbar: cells, matrices and loops *)

Module Crossbar.

(** A crossbar cell [{state, selector}] ([updateCrossbar] also stores a
    [logic] label, which only the rendering reads).  [state] is one of the
    strings ["RON"], ["ROFF"] and, for the filler cells, ["INTER"]. *)
Record cell : Type := Cell {
  state : string;
  selector : bool
}.

(** [m[r][c]]; reading through a missing row throws, and so does the first
    field access on a missing cell: both are [None] here. *)
Definition get2 {A} (m : list (list A)) (r c : nat) : option A :=
  row ← m !! r; row !! c.

(** [m[r][c] = x], for an index inside the array (every store below is). *)
Definition set2 {A} (r c : nat) (x : A) (m : list (list A)) : list (list A) :=
  alter (<[c := x]>) r m.

(** A [rows] by [cols] array of zeros. *)
Definition zeros (rows cols : nat) : list (list float) :=
  replicate rows (replicate cols 0%float).

(** [for (let i = 0; i < n; i++) { ... }] over a loop state, where the body
    may throw. *)
Fixpoint loop {S} (body : nat → S → option S) (l : list nat) (s : S) : option S :=
  match l with
  | [] => Some s
  | i :: l' => s' ← body i s; loop body l' s'
  end.

(** [copy[r][c].state = copy[r][c].state === "RON" ? "ROFF" : "RON"] on a
    deep copy of the matrix. *)
Definition toggleCrossbarState (r c : nat) (prev : list (list cell)) : option (list (list cell)) :=
  cl ← get2 prev r c;
  Some (set2 r c
    {| state := if String.eqb (state cl) "RON" then "ROFF" else "RON";
       selector := selector cl |} prev).

(** [copy[r][c].selector = !copy[r][c].selector] on a deep copy. *)
Definition toggleSelector (r c : nat) (prev : list (list cell)) : option (list (list cell)) :=
  cl ← get2 prev r c;
  Some (set2 r c {| state := state cl; selector := negb (selector cl) |} prev).

(** The matrix [updateCrossbar(gate, A, B, output)] installs; [output] is
    [None] when it is not a number. *)
Definition updateCrossbar (gate : string) (A B : Z) (output : option Z)
  : list (list cell) :=
  let level (b : bool) := if b then "RON" else "ROFF" in
  let filler := {| state := "INTER"; selector := true |} in
  [ [ {| state := level (A =? 1); selector := true |};
      {| state := level (B =? 1); selector := true |}; filler; filler ];
    [ {| state := level (bool_decide (output = Some 1)); selector := true |};
      filler; filler; filler ];
    [ filler; filler; filler; filler ];
    [ filler; filler; filler; filler ] ].

(** The initial matrix of the app: every cell ["ROFF"], selector on. *)
Definition initial : list (list cell) :=
  replicate 4 (replicate 4 {| state := "ROFF"; selector := true |}).

(** A 4 by 4 matrix. *)
Definition well_formed {A} (m : list (list A)) : Prop :=
  length m = 4%nat ∧ Forall (λ row, length row = 4%nat) m.

(** A matrix of [rows] rows of [cols] entries each. *)
Definition shaped {A} (rows cols : nat) (m : list (list A)) : Prop :=
  length m = rows ∧ Forall (λ row, length row = cols) m.

(** The conductance of a cell in the words of the specification: zero when
    the selector is disabled, else [1/R_low] for the low-resistance state
    (["RON"]) and [1/R_high] for any other state. *)
Definition spec_conductance (R_low R_high : float) (cl : cell) : float :=
  if selector cl then
    if String.eqb (state cl) "RON" then (1 / R_low)%float else (1 / R_high)%float
  else 0%float.

(** The sum of column [c] of a matrix of currents, rows taken in order
    from an initial total of zero. *)
Definition column_sum (cur : list (list float)) (c : nat) : float :=
  foldl (λ acc row, (acc + default 0 (row !! c))%float) 0%float cur.

End Crossbar.

(** ** The interpreter loop ([runGate]) and the gate-change effect *)

Module App.
Import MPU.

(** [ins.args[i]]: throws when [ins.args] is [undefined], and is
    [undefined] past the end of the array. *)
Definition arg (ins : instruction) (i : nat) : M (option coord) :=
  l ← deref (args ins); mret (l !! i).

(** The [switch (ins.op)] of the loop body; it has no [default] case. *)
Definition execute (t : Z) (ins : instruction) : M unit :=
  if String.eqb (op ins) "MNOT" then
    a0 ← arg ins 0; _ ← MNOT t a0; mret ()
  else if String.eqb (op ins) "MNOR" then
    a0 ← arg ins 0; a1 ← arg ins 1; a2 ← arg ins 2;
    _ ← MNOR t a0 a1 a2; mret ()
  else if String.eqb (op ins) "ISO" then ISO
  else if String.eqb (op ins) "COM" then COM
  else if String.eqb (op ins) "JSET" then JSET
  else if String.eqb (op ins) "JRES" then JRES
  else mret ().

(** One turn of the loop: execute the instruction, take the snapshot, and
    read cell (0,3) for [updateCrossbar]; the React state setters called
    with these values do not touch the simulator. *)
Definition step (t : Z) (ins : instruction) : M unit :=
  _ ← execute t ins;
  _ ← snapshot;
  _ ← getState 0 3;
  mret ().

Fixpoint run_from (clock : nat → Z) (idx : nat) (l : list instruction) : M unit :=
  match l with
  | [] => mret ()
  | ins :: l' => _ ← step (clock idx) ins; run_from clock (S idx) l'
  end.

(** [runGate()], for the selected gate and the inputs its closure holds.
    [clock 0] and [clock 1] are the timestamps of the two [setState]
    calls, [clock (2 + idx)] that of instruction [idx].  The result is
    the value handed to [setOutput].  ['B' in inputs] always holds.
    The pauses between the turns of the loop are not modelled: the run is
    taken as one uninterrupted sequence of calls on the simulator. *)
Definition runGate (selectedGate : string) (i : inputs) (clock : nat → Z) : M Z :=
  match GATES selectedGate with
  | Missing => throw
  | Inherited =>
      _ ← resetGrid 0 0;
      _ ← setState (clock 0%nat) 0 0 (bit (truthyZ (input_A i)));
      _ ← setState (clock 1%nat) 0 1 (bit (truthyZ (input_B i)));
      throw
  | Own gate =>
      _ ← resetGrid (layoutRows gate) (layoutCols gate);
      _ ← setState (clock 0%nat) 0 0 (bit (truthyZ (input_A i)));
      _ ← setState (clock 1%nat) 0 1 (bit (truthyZ (input_B i)));
      let instructions := instructionSequence gate i in
      _ ← run_from clock 2 instructions;
      getState 0 3
  end.

(** The effect that runs when [selectedGate] changes. *)
Definition selectGate (selectedGate : string) : M unit :=
  match GATES selectedGate with
  | Missing => throw
  | Inherited => resetGrid 0 0
  | Own g => resetGrid (layoutRows g) (layoutCols g)
  end.

(** [toggleCell(r, c)] *)
Definition toggleCell (t : Z) (r c : nat) : M unit :=
  cur ← getState r c;
  setState t r c (bit (negb (truthyZ cur))).

(** *** The read-model effect *)

(** What one run of the effect leaves behind: the row-drive vector, the
    conductances (a local of the effect), the per-cell currents, the
    per-column totals and the value handed to [setOutput]. *)
Record readmodel : Type := ReadModel {
  newDriven : list bool;
  G : list (list float);
  currents : list (list float);
  blTotals : list float;
  out : Z
}.

Section Effect.
Variables RON ROFF : float.
Import Crossbar.
#[local] Open Scope float_scope.

(** "build G matrix" *)
Definition build_G (crossbar : list (list cell)) : option (list (list float)) :=
  loop (λ r G,
    loop (λ c G,
      cell ← get2 crossbar r c;
      if negb (selector cell) then Some (set2 r c 0 G)
      else Some (set2 r c (1.0 / (if String.eqb (state cell) "RON" then RON else ROFF)) G))
      (seq 0 4) G)
    (seq 0 4) (zeros 4 4).

(** "compute currents I_rc = (Vwl - Vbl) * G_rc; we use Vbl=0" *)
Definition compute_currents (newDriven : list bool) (G : list (list float))
    (vDrive : float) : option (list (list float) * list float) :=
  loop (λ r acc,
    let Vwl := if default false (newDriven !! r) then vDrive else 0 in
    loop (λ c '(currents, blTotals),
      g ← get2 G r c;
      let Irc := (Vwl - 0) * g in
      total ← blTotals !! c;
      Some (set2 r c Irc currents, <[c := total + Irc]> blTotals))
      (seq 0 4) acc)
    (seq 0 4) (zeros 4 4, replicate 4 0).

(** "basic read threshold: if BL0 current > threshold => logic 1";
    [blTotals[0] > threshold] is the comparison [threshold < blTotals[0]],
    false when [blTotals[0]] is missing or either side is NaN. *)
Definition readout (blTotals : list float) (vDrive : float) : Z :=
  let threshold := (vDrive / RON) * 0.35 in
  match blTotals !! 0%nat with
  | Some bl0 => if threshold <? bl0 then 1%Z else 0%Z
  | None => 0%Z
  end.

(** The effect that depends on [inputs], [crossbar] and [vDrive], with the
    module constants [RON] and [ROFF] as parameters. *)
Definition recompute_with (i : inputs) (crossbar : list (list cell)) (vDrive : float)
  : option readmodel :=
  let A := if truthyZ (input_A i) then 1%Z else 0%Z in
  let B := if truthyZ (input_B i) then 1%Z else 0%Z in
  let newDriven := [truthyZ A; truthyZ B; false; false] in
  G ← build_G crossbar;
  '(currents, blTotals) ← compute_currents newDriven G vDrive;
  let out := readout blTotals vDrive in
  Some {| newDriven := newDriven; G := G; currents := currents;
          blTotals := blTotals; out := out |}.

End Effect.

Definition DEFAULT_VDRIVE : float := 1.0.
Definition RON : float := 1000.
Definition ROFF : float := 1000000.

Definition recompute := recompute_with RON ROFF.

(** *** Handlers and the remaining effects *)

(** [toggleInput(name)]: [{...prev, [name]: prev[name] ? 0 : 1}].  A name
    other than ["A"] and ["B"] adds a property that nothing reads. *)
Definition toggleInput (name : string) (prev : inputs) : inputs :=
  if String.eqb name "A" then
    {| input_A := if truthyZ (input_A prev) then 0%Z else 1%Z;
       input_B := input_B prev |}
  else if String.eqb name "B" then
    {| input_A := input_A prev;
       input_B := if truthyZ (input_B prev) then 0%Z else 1%Z |}
  else prev.

(** The effect on [selectedGate] and [inputs] ("Auto-run whenever inputs or
    gate changes"): the value handed to [setOutput] and the matrix handed
    to [setCrossbar]. *)
Definition autoRun (selectedGate : string) (i : inputs)
  : truth * list (list Crossbar.cell) :=
  let out := computeTruth selectedGate (input_A i) (input_B i) in
  (out,
   Crossbar.updateCrossbar selectedGate (input_A i) (input_B i)
     (match out with TNum z => Some z | TDash => None end)).

(** The two updates of [pulseWLs(indices, duration)]: the one made at once
    ([value] is [true]) and the one made when the timer fires ([false]).
    [indices.forEach(i => { if (i >= 0 && i < next.length) next[i] = value })]
    on a copy of the array. *)
Definition pulse (value : bool) (indices : list Z) (prev : list bool) : list bool :=
  foldl (λ next i,
    if (0 <=? i)%Z && (i <? Z.of_nat (length next))%Z
    then <[Z.to_nat i := value]> next else next)
    prev indices.

Definition pulseWLs (indices : list Z) (prev : list bool) : list bool * list bool :=
  let during := pulse true indices prev in
  (during, pulse false indices during).

(** The state [GridVisualizer] shows for cell (r, c):
    [snapshot[id] ? snapshot[id].state : 0]. *)
Definition shown (snapshot : gmap string Z) (r c : nat) : Z :=
  match snapshot !! MPU.makeId r c with
  | Some st => st
  | None => 0%Z
  end.

End App.

(** ** The [sim] memo of [CrossbarAdvanced] *)

Module CrossbarAdvanced.
Import Crossbar.

Record simresult : Type := SimResult {
  G : list (list float);
  I : list (list float);
  BL_total : list float;
  maxI : float
}.

Section Sim.
Variables RON ROFF : float.
#[local] Open Scope float_scope.

(** "Build per-cell conductance G (S)" *)
Definition build_G (rows cols : nat) (matrix : list (list cell))
  : option (list (list float)) :=
  loop (λ r G,
    loop (λ c G,
      cell ← get2 matrix r c;
      if negb (selector cell) then Some (set2 r c 0 G)
      else
        let R := if String.eqb (state cell) "RON" then RON else ROFF in
        Some (set2 r c (1.0 / R) G))
      (seq 0 cols) G)
    (seq 0 rows) (zeros rows cols).

(** "Compute currents from each WL to each BL: I_rc = (Vwl - Vbl) * G_rc" *)
Definition compute_currents (rows cols : nat) (drivenWL : list bool)
    (G : list (list float)) (vDrive : float)
  : option (list (list float) * list float) :=
  loop (λ r acc,
    let Vwl := if default false (drivenWL !! r) then vDrive else 0 in
    loop (λ c '(I, BL_total),
      let Vbl := 0 in
      g ← get2 G r c;
      let Irc := (Vwl - Vbl) * g in
      total ← BL_total !! c;
      Some (set2 r c Irc I, <[c := total + Irc]> BL_total))
      (seq 0 cols) acc)
    (seq 0 rows) (zeros rows cols, replicate cols 0).

(** The largest [Math.abs(I[r][c])]. *)
Definition max_current (rows cols : nat) (I : list (list float)) : option float :=
  loop (λ r maxI,
    loop (λ c maxI,
      x ← get2 I r c;
      Some (if maxI <? PrimFloat.abs x then PrimFloat.abs x else maxI))
      (seq 0 cols) maxI)
    (seq 0 rows) 0.

(** The memo over [matrix], [drivenWL], [vDrive], [rows] and [cols], with
    the module constants [RON] and [ROFF] as parameters. *)
Definition sim_with (rows cols : nat) (matrix : list (list cell))
    (drivenWL : list bool) (vDrive : float) : option simresult :=
  G ← build_G rows cols matrix;
  '(I, BL_total) ← compute_currents rows cols drivenWL G vDrive;
  maxI ← max_current rows cols I;
  Some {| G := G; I := I; BL_total := BL_total; maxI := maxI |}.

End Sim.

Definition RON : float := 2000.0.
Definition ROFF : float := 40000.0.
Definition DEFAULT_VDRIVE : float := 1.0.

Definition sim := sim_with RON ROFF.

(** [makeInitial()]: the [initial] prop when it is given, has [rows] rows
    and a first row of [cols] cells, else a fresh matrix of ["ROFF"] cells.
    Reading [initial[0].length] throws when [initial] is an empty array and
    [rows] is 0. *)
Definition makeInitial (rows cols : nat) (initial : option (list (list cell)))
  : option (list (list cell)) :=
  let fresh := replicate rows (replicate cols {| state := "ROFF"; selector := true |}) in
  match initial with
  | Some init =>
      if Nat.eqb (length init) rows then
        first ← init !! 0%nat;
        if Nat.eqb (length first) cols then Some init else Some fresh
      else Some fresh
  | None => Some fresh
  end.

(** [toggleCellState(r, c)] on a deep copy of the matrix. *)
Definition toggleCellState (r c : nat) (prev : list (list cell)) : option (list (list cell)) :=
  cl ← get2 prev r c;
  Some (set2 r c
    {| state := if String.eqb (state cl) "RON" then "ROFF" else "RON";
       selector := selector cl |} prev).

(** [toggleSelector(r, c)] on a deep copy of the matrix. *)
Definition toggleSelector (r c : nat) (prev : list (list cell)) : option (list (list cell)) :=
  cl ← get2 prev r c;
  Some (set2 r c {| state := state cl; selector := negb (selector cl) |} prev).

(** [toggleWL(r)]: [copy[r] = !copy[r]].  Past the end the assignment grows
    the array; the holes it leaves read as [undefined], which every reader
    of [drivenWL] treats as [false]. *)
Definition toggleWL (r : nat) (prev : list bool) : list bool :=
  if Nat.ltb r (length prev) then <[r := negb (default false (prev !! r))]> prev
  else prev ++ replicate (r - length prev) false ++ [true].

End CrossbarAdvanced.

(** ** The electrical model in the words of the specification *)

Module Spec.
Import Crossbar.
#[local] Open Scope float_scope.

(** The word-line voltage of row [r]: the drive voltage when the row is
    driven, zero otherwise. *)
Definition V_row (driven : list bool) (vDrive : float) (r : nat) : float :=
  if default false (driven !! r) then vDrive else 0.

(** [computeCurrents]: the conductance of every cell, the current
    [(V_row - 0) * conductance] of every cell, and the sum of every
    column. *)
Definition conductances (R_low R_high : float) (grid : list (list cell))
  : list (list float) :=
  fmap (M := list) (fmap (M := list) (spec_conductance R_low R_high)) grid.

Definition cell_currents (R_low R_high : float) (grid : list (list cell))
    (driven : list bool) (vDrive : float) : list (list float) :=
  imap (λ r row, (λ g, (V_row driven vDrive r - 0) * g) <$> row)
    (conductances R_low R_high grid).

Definition column_totals (cur : list (list float)) : list float :=
  column_sum cur <$> seq 0 4.

(** The column totals of a matrix with [cols] columns. *)
Definition column_totals_of (cols : nat) (cur : list (list float)) : list float :=
  column_sum cur <$> seq 0 cols.

(** [readout]: 1 when the total of column 0 exceeds 0.35 times
    [vDrive / R_low], else 0 (a missing total exceeds nothing, like NaN). *)
Definition readout (R_low : float) (columnTotals : list float) (vDrive : float) : Z :=
  if 0.35 * (vDrive / R_low) <? default nan (columnTotals !! 0%nat) then 1%Z else 0%Z.

(** The row-drive mapping: input A drives row 0, input B row 1. *)
Definition drive (i : inputs) : list bool :=
  [truthyZ (input_A i); truthyZ (input_B i); false; false].

End Spec.

(** ** Sequences of simulator calls *)

(** One call of a method of the simulator object, with its arguments. *)
Inductive call : Type :=
  | CallResetGrid (rows cols : nat)
  | CallSetState (t : Z) (r c : nat) (val : jsval)
  | CallGetState (r c : nat)
  | CallMNOT (t : Z) (target : option coord)
  | CallMNOR (t : Z) (target a b : option coord)
  | CallCOM
  | CallISO
  | CallJSET
  | CallJRES
  | CallSnapshot.

(** The store a call leaves behind, whether it returns or throws. *)
Definition perform (k : call) (s : store) : store :=
  match k with
  | CallResetGrid rows cols => final_store (MPU.resetGrid rows cols s)
  | CallSetState t r c val => final_store (MPU.setState t r c val s)
  | CallGetState r c => final_store (MPU.getState r c s)
  | CallMNOT t target => final_store (MPU.MNOT t target s)
  | CallMNOR t target a b => final_store (MPU.MNOR t target a b s)
  | CallCOM => final_store (MPU.COM s)
  | CallISO => final_store (MPU.ISO s)
  | CallJSET => final_store (MPU.JSET s)
  | CallJRES => final_store (MPU.JRES s)
  | CallSnapshot => final_store (MPU.snapshot s)
  end.

Definition perform_all (ks : list call) (s : store) : store :=
  foldl (λ s k, perform k s) s ks.

(** Every stored cell holds 0 or 1. *)
Definition binary (s : store) : Prop :=
  ∀ id m, s !! id = Some m → state m = 0 ∨ state m = 1.

(** The cell a store shows at an id: the stored one, or the cell that lazy
    creation would put there. *)
Definition view (s : store) (id : string) : memristor :=
  default MPU.fresh (s !! id).

(** The store after [ensure(r, c)]. *)
Definition ensured (r c : nat) (s : store) : store :=
  match s !! MPU.makeId r c with
  | Some _ => s
  | None => <[MPU.makeId r c := MPU.fresh]> s
  end.

(** The op-codes the interpreter's [switch] has a case for. *)
Definition recognized : list string :=
  [ "MNOT"; "MNOR"; "ISO"; "COM"; "JSET"; "JRES" ].

(** ** Auxiliary notions for the statements *)

(** A string without the character [-]. *)
Fixpoint dashless (s : string) : bool :=
  match s with
  | EmptyString => true
  | String a s' => negb (Ascii.eqb a "-"%char) && dashless s'
  end.

(** [s'] shows the same cell as [s] at every id and has every cell of [s]:
    it differs from [s] by lazily created cells only. *)
Definition extends (s s' : store) : Prop :=
  (∀ id, view s' id = view s id) ∧ (∀ id, is_Some (s !! id) → is_Some (s' !! id)).

(** The value [MNOR] writes for operand states [x] and [y]. *)
Definition nor_bit (x y : Z) : Z := if truthyZ (js_or x y) then 0 else 1.

(** The ids [resetGrid(rows, cols)] visits, in order. *)
Definition grid_ids (rows cols : nat) : list string :=
  r ← seq 0 rows; c ← seq 0 cols; [MPU.makeId r c].

(** A cell whose state is the value of its last history entry, or 0 when
    nothing was ever applied to it. *)
Definition settled (m : memristor) : Prop :=
  state m = from_option h_val 0 (last (history m)).

(** Every stored cell is settled. *)
Definition all_settled (s : store) : Prop :=
  ∀ id m, s !! id = Some m → settled m.

(** The sign of a binary64 value is not negative: a zero, a positive
    number, plus infinity or NaN. *)
Definition not_negative (x : spec_float) : Prop :=
  match x with
  | S754_zero _ | S754_nan => True
  | S754_infinity s | S754_finite s _ _ => s = false
  end.

(** A positive number or plus infinity. *)
Definition strictly_positive (x : spec_float) : Prop :=
  match x with
  | S754_finite false _ _ | S754_infinity false => True
  | _ => False
  end.

(** * Properties *)

(** ** Cell ids *)

Lemma pretty_N_char_dashless (x : N) (s : string) :
  dashless s = true → dashless (String (pretty_N_char x) s) = true.
Proof.
  intros Hs. unfold pretty_N_char. simpl. rewrite Hs.
  by repeat case_match.
Qed.

Lemma pretty_N_go_dashless (x : N) (s : string) :
  dashless s = true → dashless (pretty_N_go x s) = true.
Proof.
  revert s. induction (N.lt_wf_0 x) as [x _ IH]. intros s Hs.
  destruct (decide (x = 0)%N) as [->|Hx].
  - by rewrite pretty_N_go_0.
  - rewrite pretty_N_go_step by lia.
    apply IH; [apply N.div_lt; lia|].
    by apply pretty_N_char_dashless.
Qed.

Lemma pretty_nat_dashless (n : nat) : dashless (pretty n) = true.
Proof.
  unfold pretty, pretty_nat, pretty, pretty_N.
  case_decide; [done|]. by apply pretty_N_go_dashless.
Qed.

(** Two dash-free prefixes followed by a dash split a string the same way. *)
Lemma dash_split (d1 d2 e1 e2 : string) :
  dashless d1 = true → dashless d2 = true →
  d1 +:+ String "-" e1 = d2 +:+ String "-" e2 → d1 = d2 ∧ e1 = e2.
Proof.
  revert d2. induction d1 as [|a d1 IH]; intros [|b d2]; simpl.
  - intros _ _ [= ->]. done.
  - intros _ Hb [= <- _]. done.
  - intros Ha _ [= -> _]. done.
  - intros [Ha Hd1]%andb_prop [Hb Hd2]%andb_prop [= -> Heq].
    destruct (IH d2 Hd1 Hd2 Heq) as [-> ->]. done.
Qed.

Lemma makeId_inj (r c r' c' : nat) :
  MPU.makeId r c = MPU.makeId r' c' → r = r' ∧ c = c'.
Proof.
  unfold MPU.makeId. intros [= Heq].
  apply dash_split in Heq as [Hr Hc]; [|apply pretty_nat_dashless..].
  split; by apply (inj pretty).
Qed.

(** ** The store seen through [view] *)

Lemma ensure_returns (r c : nat) (s : store) :
  MPU.ensure r c s = Returns (view s (MPU.makeId r c)) (ensured r c s).
Proof. unfold MPU.ensure, view, ensured. by destruct (s !! _). Qed.

Lemma view_ensured (r c : nat) (s : store) (id : string) :
  view (ensured r c s) id = view s id.
Proof.
  unfold ensured, view.
  destruct (s !! MPU.makeId r c) eqn:E; [done|].
  destruct (decide (MPU.makeId r c = id)) as [<-|Hne].
  - by rewrite lookup_insert_eq, E.
  - by rewrite lookup_insert_ne.
Qed.

Lemma view_insert (s : store) (id id' : string) (m : memristor) :
  view (<[id := m]> s) id' = if decide (id = id') then m else view s id'.
Proof.
  unfold view. rewrite lookup_insert. by case_decide.
Qed.

Lemma peek_view (s : store) (r c : nat) :
  MPU.peek s r c = state (view s (MPU.makeId r c)).
Proof. unfold MPU.peek, view. by destruct (s !! _). Qed.

Lemma ensured_present (r c : nat) (s : store) :
  ensured r c s !! MPU.makeId r c = Some (view s (MPU.makeId r c)).
Proof.
  unfold ensured, view. destruct (s !! MPU.makeId r c) eqn:E; simpl.
  - by rewrite E.
  - by rewrite lookup_insert_eq.
Qed.

Lemma ensured_keeps (r c : nat) (s : store) (id : string) :
  is_Some (s !! id) → is_Some (ensured r c s !! id).
Proof.
  unfold ensured. destruct (s !! MPU.makeId r c) eqn:E; [done|].
  intros Hid. destruct (decide (MPU.makeId r c = id)) as [<-|Hne].
  - by rewrite lookup_insert_eq.
  - by rewrite lookup_insert_ne.
Qed.

Lemma ensured_insert (r c : nat) (m : memristor) (s : store) :
  ensured r c (<[MPU.makeId r c := m]> s) = <[MPU.makeId r c := m]> s.
Proof. unfold ensured. by rewrite lookup_insert_eq. Qed.

Lemma getState_returns (r c : nat) (s : store) :
  MPU.getState r c s = Returns (MPU.peek s r c) (ensured r c s).
Proof.
  unfold MPU.getState, mbind, M_bind. rewrite ensure_returns.
  by rewrite peek_view.
Qed.

Lemma peek_ensured (r c r' c' : nat) (s : store) :
  MPU.peek (ensured r c s) r' c' = MPU.peek s r' c'.
Proof. by rewrite !peek_view, view_ensured. Qed.

Lemma extends_refl (s : store) : extends s s.
Proof. done. Qed.

Lemma extends_trans (s1 s2 s3 : store) :
  extends s1 s2 → extends s2 s3 → extends s1 s3.
Proof.
  intros [Hv1 Hd1] [Hv2 Hd2]. split.
  - intros id. by rewrite Hv2.
  - intros id Hid. by apply Hd2, Hd1.
Qed.

Lemma extends_ensured (r c : nat) (s : store) : extends s (ensured r c s).
Proof. split; [apply view_ensured | apply ensured_keeps]. Qed.

Lemma extends_lookup (s s' : store) (id : string) (m : memristor) :
  extends s s' → s !! id = Some m → s' !! id = Some m.
Proof.
  intros [Hv Hd] Hm. destruct (Hd id) as [m' Hm']; [by eexists|].
  specialize (Hv id). unfold view in Hv. rewrite Hm, Hm' in Hv.
  simpl in Hv. by subst.
Qed.

Lemma extends_peek (s s' : store) (r c : nat) :
  extends s s' → MPU.peek s' r c = MPU.peek s r c.
Proof. intros [Hv _]. by rewrite !peek_view, Hv. Qed.

(** ** The operations, as equations *)

Lemma nor_bit_or (x y : Z) :
  nor_bit x y = if truthyZ x || truthyZ y then 0 else 1.
Proof.
  unfold nor_bit, js_or. destruct (truthyZ x) eqn:Ex; simpl; [by rewrite Ex|done].
Qed.

Lemma nor_bit_table (x y : bool) :
  nor_bit (Z.b2z x) (Z.b2z y) = Z.b2z (negb (x || y)).
Proof. by destruct x, y. Qed.

Lemma MNOR_returns (t : Z) (target a b : coord) (s : store) :
  let ma := MPU.peek s (coord_r a) (coord_c a) in
  let mb := MPU.peek s (coord_r b) (coord_c b) in
  let s3 := ensured (coord_r target) (coord_c target)
              (ensured (coord_r b) (coord_c b) (ensured (coord_r a) (coord_c a) s)) in
  MPU.MNOR t (Some target) (Some a) (Some b) s =
    Returns (nor_bit ma mb)
      (<[MPU.makeId (coord_r target) (coord_c target) :=
           {| state := nor_bit ma mb;
              history :=
                history (view s (MPU.makeId (coord_r target) (coord_c target)))
                ++ [HistEntry "MNOR" t (nor_bit ma mb) (Some (ma, mb))] |}]> s3).
Proof.
  unfold MPU.MNOR, MPU.write, mbind, M_bind, deref, mret, M_ret. simpl.
  rewrite !ensure_returns, !view_ensured, !peek_view. done.
Qed.

Lemma MNOT_returns (t : Z) (target : coord) (s : store) :
  let v := if truthyZ (MPU.peek s (coord_r target) (coord_c target)) then 0 else 1 in
  MPU.MNOT t (Some target) s =
    Returns v
      (<[MPU.makeId (coord_r target) (coord_c target) :=
           {| state := v;
              history :=
                history (view s (MPU.makeId (coord_r target) (coord_c target)))
                ++ [HistEntry "MNOT" t v None] |}]>
         (ensured (coord_r target) (coord_c target) s)).
Proof.
  unfold MPU.MNOT, MPU.write, mbind, M_bind, deref, mret, M_ret. simpl.
  rewrite !ensure_returns, !peek_view. done.
Qed.

Lemma setState_returns (t : Z) (r c : nat) (val : jsval) (s : store) :
  let v := if truthy val then 1 else 0 in
  MPU.setState t r c val s =
    Returns ()
      (<[MPU.makeId r c :=
           {| state := v;
              history := history (view s (MPU.makeId r c)) ++ [HistEntry "SET" t v None] |}]>
         (ensured r c s)).
Proof.
  unfold MPU.setState, MPU.write, mbind, M_bind. simpl.
  rewrite !ensure_returns. done.
Qed.

Lemma peek_insert (s : store) (r c r' c' : nat) (m : memristor) :
  MPU.peek (<[MPU.makeId r c := m]> s) r' c' =
    if decide (Coord r c = Coord r' c') then state m else MPU.peek s r' c'.
Proof.
  rewrite !peek_view, view_insert.
  destruct (decide (MPU.makeId r c = MPU.makeId r' c')) as [Heq|Hne].
  - apply makeId_inj in Heq as [-> ->]. by rewrite decide_True.
  - rewrite decide_False; [done|]. intros [= -> ->]. done.
Qed.

(** ** [resetGrid] *)

Lemma bind_run {A B} (m : M A) (f : A → M B) (s : store) :
  (m ≫= f) s =
    match m s with
    | Returns a s' => f a s'
    | Throws s' => Throws s'
    end.
Proof. reflexivity. Qed.

Lemma ensure_row (r : nat) (cs : list nat) (s : store) :
  ∃ s', for_each (λ c, _ ← MPU.ensure r c; mret ()) cs s = Returns () s'
        ∧ extends s s'
        ∧ ∀ c, c ∈ cs → is_Some (s' !! MPU.makeId r c).
Proof.
  revert s. induction cs as [|c cs IH]; intros s; simpl.
  - exists s. split_and!; [done|apply extends_refl|]. by intros c ?%elem_of_nil.
  - unfold mbind, M_bind. rewrite ensure_returns. simpl.
    destruct (IH (ensured r c s)) as (s' & Hrun & Hext & Hin).
    exists s'. split_and!; [done|..].
    + eapply extends_trans; [apply extends_ensured|done].
    + intros c' [->|Hc']%elem_of_cons; [|by apply Hin].
      apply Hext. rewrite ensured_present. by eexists.
Qed.

Lemma ensure_rows (cols : nat) (rs : list nat) (s : store) :
  ∃ s', for_each (λ r, for_range cols (λ c, _ ← MPU.ensure r c; mret ())) rs s
          = Returns () s'
        ∧ extends s s'
        ∧ ∀ r c, r ∈ rs → (c < cols)%nat → is_Some (s' !! MPU.makeId r c).
Proof.
  revert s. induction rs as [|r rs IH]; intros s; simpl.
  - exists s. split_and!; [done|apply extends_refl|]. by intros r c ?%elem_of_nil.
  - rewrite bind_run. unfold for_range at 1.
    destruct (ensure_row r (seq 0 cols) s) as (s1 & -> & Hext1 & Hin1).
    destruct (IH s1) as (s' & Hrun & Hext & Hin).
    exists s'. split_and!; [done|..].
    + by eapply extends_trans.
    + intros r' c [->|Hr']%elem_of_cons Hc; [|by apply Hin].
      apply Hext, Hin1. apply elem_of_seq. lia.
Qed.

Lemma resetGrid_returns (rows cols : nat) (s : store) :
  ∃ s', MPU.resetGrid rows cols s = Returns () s'
        ∧ (∀ id m, s' !! id = Some m → m = MPU.fresh)
        ∧ ∀ r c, (r < rows)%nat → (c < cols)%nat → s' !! MPU.makeId r c = Some MPU.fresh.
Proof.
  unfold MPU.resetGrid, for_range at 1.
  destruct (ensure_rows cols (seq 0 rows) ∅) as (s' & -> & [Hv Hd] & Hin).
  assert (Hall : ∀ id m, s' !! id = Some m → m = MPU.fresh).
  { intros id m Hm. specialize (Hv id). unfold view in Hv.
    by rewrite Hm, lookup_empty in Hv. }
  exists s'. split_and!; [done|done|].
  intros r c Hr Hc. destruct (Hin r c) as [m Hm]; [apply elem_of_seq; lia|done|].
  by rewrite Hm, (Hall _ _ Hm).
Qed.

(** ** The binary-state invariant, operation by operation *)

Lemma binary_empty : binary ∅.
Proof. intros id m. by rewrite lookup_empty. Qed.

Lemma binary_insert (s : store) (id : string) (m : memristor) :
  binary s → state m = 0 ∨ state m = 1 → binary (<[id := m]> s).
Proof.
  intros Hs Hm id' m'. rewrite lookup_insert. case_decide; [|by apply Hs].
  by intros [= <-].
Qed.

Lemma binary_ensured (r c : nat) (s : store) : binary s → binary (ensured r c s).
Proof.
  intros Hs. unfold ensured. destruct (s !! _); [done|].
  apply binary_insert; [done|by left].
Qed.

Lemma binary_setState (t : Z) (r c : nat) (val : jsval) (s : store) :
  binary s → binary (final_store (MPU.setState t r c val s)).
Proof.
  intros Hs. rewrite setState_returns. simpl.
  apply binary_insert; [by apply binary_ensured|]. simpl.
  destruct (truthy val); auto.
Qed.

Lemma binary_MNOT (t : Z) (target : option coord) (s : store) :
  binary s → binary (final_store (MPU.MNOT t target s)).
Proof.
  intros Hs. destruct target as [tg|]; [|done].
  rewrite MNOT_returns. simpl.
  apply binary_insert; [by apply binary_ensured|]. simpl.
  destruct (truthyZ _); auto.
Qed.

Lemma binary_MNOR (t : Z) (target a b : option coord) (s : store) :
  binary s → binary (final_store (MPU.MNOR t target a b s)).
Proof.
  intros Hs. destruct a as [ca|]; [|done].
  destruct b as [cb|].
  2:{ unfold MPU.MNOR, mbind, M_bind, deref. simpl.
      rewrite ensure_returns. simpl. by apply binary_ensured. }
  destruct target as [tg|].
  2:{ unfold MPU.MNOR, mbind, M_bind, deref. simpl.
      rewrite !ensure_returns. simpl. by do 2 apply binary_ensured. }
  rewrite MNOR_returns. simpl.
  apply binary_insert; [by do 3 apply binary_ensured|]. simpl.
  unfold nor_bit. destruct (truthyZ _); auto.
Qed.

Lemma binary_resetGrid (rows cols : nat) (s : store) :
  binary (final_store (MPU.resetGrid rows cols s)).
Proof.
  destruct (resetGrid_returns rows cols s) as (s' & -> & Hall & _). simpl.
  intros id m Hm. rewrite (Hall _ _ Hm). by left.
Qed.

Lemma binary_perform (k : call) (s : store) : binary s → binary (perform k s).
Proof.
  intros Hs. destruct k; simpl; try done.
  - apply binary_resetGrid.
  - by apply binary_setState.
  - rewrite getState_returns. by apply binary_ensured.
  - by apply binary_MNOT.
  - by apply binary_MNOR.
Qed.

(** ** The truth-table helper *)

(** C1. For each of the six gates and every input pair in {0,1}², the
    reference truth-function returns the conventional boolean value:
    NOT(a) = 1 - a, AND = a * b, OR = max(a, b), NAND = 1 - a * b,
    XOR = a xor b, XNOR = 1 - (a xor b). *)
Theorem computeTruth_boolean_semantics (a b : Z) :
  a = 0 ∨ a = 1 → b = 0 ∨ b = 1 →
  computeTruth "NOT" a b = TNum (1 - a)
  ∧ computeTruth "AND" a b = TNum (a * b)
  ∧ computeTruth "OR" a b = TNum (Z.max a b)
  ∧ computeTruth "NAND" a b = TNum (1 - a * b)
  ∧ computeTruth "XOR" a b = TNum (Z.lxor a b)
  ∧ computeTruth "XNOR" a b = TNum (1 - Z.lxor a b).
Proof.
  intros [-> | ->] [-> | ->]; repeat split; reflexivity.
Qed.

Lemma computeTruth_boolean_semantics_witness :
  (1 = 0 ∨ 1 = 1) ∧ (0 = 0 ∨ 0 = 1)
  ∧ computeTruth "NOT" 1 0 = TNum (1 - 1)
  ∧ computeTruth "AND" 1 0 = TNum (1 * 0)
  ∧ computeTruth "OR" 1 0 = TNum (Z.max 1 0)
  ∧ computeTruth "NAND" 1 0 = TNum (1 - 1 * 0)
  ∧ computeTruth "XOR" 1 0 = TNum (Z.lxor 1 0)
  ∧ computeTruth "XNOR" 1 0 = TNum (1 - Z.lxor 1 0).
Proof.
  split; [right; reflexivity|]. split; [left; reflexivity|].
  apply (computeTruth_boolean_semantics 1 0); [right|left]; reflexivity.
Defined.

(** ** [norWrite] *)

(** C5. After [MNOR(target, a, b)] the state of [target] is the logical
    complement of the OR of the states [a] and [b] had before the call:
    1 when both are 0, and 0 when either is 1 (all four rows of the NOR
    table). *)
Theorem norWrite_truth_table (s : store) (t : Z) (target a b : coord) :
  let sa := MPU.peek s (coord_r a) (coord_c a) in
  let sb := MPU.peek s (coord_r b) (coord_c b) in
  ∃ v s',
    MPU.MNOR t (Some target) (Some a) (Some b) s = Returns v s'
    ∧ MPU.getState (coord_r target) (coord_c target) s' = Returns v s'
    ∧ v = (if truthyZ sa || truthyZ sb then 0 else 1)
    ∧ ∀ x y : bool, sa = Z.b2z x → sb = Z.b2z y → v = Z.b2z (negb (x || y)).
Proof.
  intros sa sb. eexists _, _. split; [apply MNOR_returns|].
  fold sa sb. split_and!.
  - rewrite getState_returns, peek_insert, decide_True by (by destruct target).
    simpl. by rewrite ensured_insert.
  - apply nor_bit_or.
  - intros x y -> ->. apply nor_bit_table.
Qed.

(** C9. [MNOR(target, a, b)] leaves the state [getState] reports for every
    coordinate other than [target] as it was; and the value written is the
    NOR of the operands' states before the call, also when [target] is one
    of the operands. *)
Theorem norWrite_frame (s : store) (t : Z) (target a b : coord) (r c : nat) :
  Coord r c ≠ target →
  ∃ v s',
    MPU.MNOR t (Some target) (Some a) (Some b) s = Returns v s'
    ∧ MPU.peek s' r c = MPU.peek s r c
    ∧ returned (MPU.getState r c s') = returned (MPU.getState r c s)
    ∧ MPU.peek s' (coord_r target) (coord_c target)
      = nor_bit (MPU.peek s (coord_r a) (coord_c a)) (MPU.peek s (coord_r b) (coord_c b)).
Proof.
  intros Hne. eexists _, _. split; [apply MNOR_returns|].
  assert (Hframe :
    ∀ m, MPU.peek (<[MPU.makeId (coord_r target) (coord_c target) := m]>
           (ensured (coord_r target) (coord_c target)
              (ensured (coord_r b) (coord_c b) (ensured (coord_r a) (coord_c a) s)))) r c
         = MPU.peek s r c).
  { intros m. rewrite peek_insert, decide_False, !peek_ensured; [done|].
    destruct target. simpl. congruence. }
  split_and!.
  - apply Hframe.
  - by rewrite !getState_returns, Hframe.
  - rewrite peek_insert, decide_True by (by destruct target). done.
Qed.

Lemma norWrite_frame_witness :
  Coord 0 1 ≠ Coord 0 0
  ∧ ∃ v s',
      MPU.MNOR 7 (Some (Coord 0 0)) (Some (Coord 0 0)) (Some (Coord 0 1))
        (<[MPU.makeId 0 1 := Memristor 1 []]> ∅) = Returns v s'
      ∧ MPU.peek s' 0 1 = MPU.peek (<[MPU.makeId 0 1 := Memristor 1 []]> ∅) 0 1
      ∧ returned (MPU.getState 0 1 s')
        = returned (MPU.getState 0 1 (<[MPU.makeId 0 1 := Memristor 1 []]> ∅))
      ∧ MPU.peek s' 0 0
        = nor_bit (MPU.peek (<[MPU.makeId 0 1 := Memristor 1 []]> ∅) 0 0)
                  (MPU.peek (<[MPU.makeId 0 1 := Memristor 1 []]> ∅) 0 1).
Proof.
  split; [discriminate|].
  apply (norWrite_frame (<[MPU.makeId 0 1 := Memristor 1 []]> ∅) 7
           (Coord 0 0) (Coord 0 0) (Coord 0 1) 0 1).
  discriminate.
Defined.

(** ** [resetGrid] then [getState] *)

(** C6. After [resetGrid(rows, cols)], whatever the grid held before,
    every in-bounds cell exists with state 0 and [getState(r, c)] returns
    0 for it. *)
Theorem resetGrid_then_getState (s : store) (rows cols r c : nat) :
  (r < rows)%nat → (c < cols)%nat →
  ∃ s',
    MPU.resetGrid rows cols s = Returns () s'
    ∧ s' !! MPU.makeId r c = Some MPU.fresh
    ∧ MPU.getState r c s' = Returns 0 s'.
Proof.
  intros Hr Hc.
  destruct (resetGrid_returns rows cols s) as (s' & Hrun & _ & Hin).
  exists s'. split_and!; [done|by apply Hin|].
  rewrite getState_returns. unfold MPU.peek, ensured. by rewrite (Hin r c Hr Hc).
Qed.

Lemma resetGrid_then_getState_witness :
  (0 < 1)%nat ∧ (2 < 3)%nat
  ∧ ∃ s',
      MPU.resetGrid 1 3 (<[MPU.makeId 0 2 := Memristor 1 []]> ∅) = Returns () s'
      ∧ s' !! MPU.makeId 0 2 = Some MPU.fresh
      ∧ MPU.getState 0 2 s' = Returns 0 s'.
Proof.
  split; [lia|]. split; [lia|].
  apply (resetGrid_then_getState (<[MPU.makeId 0 2 := Memristor 1 []]> ∅) 1 3 0 2); lia.
Defined.

(** ** The binary-state invariant *)

(** C8. Starting from the empty simulator, after any sequence of calls of
    [resetGrid], [setState], [getState], [MNOT], [MNOR], the control
    no-ops and [snapshot], every stored cell holds 0 or 1 and [getState]
    reports 0 or 1 everywhere.  [setState] stores 1 for a truthy value and
    0 for a falsy one, lazy creation stores 0, and [MNOT] and [MNOR] only
    return (and store) 0 or 1. *)
Theorem binary_state_invariant :
  (∀ ks : list call,
     binary (perform_all ks ∅)
     ∧ ∀ r c, MPU.peek (perform_all ks ∅) r c = 0 ∨ MPU.peek (perform_all ks ∅) r c = 1)
  ∧ (∀ s t r c val,
       MPU.peek (final_store (MPU.setState t r c val s)) r c
       = if truthy val then 1 else 0)
  ∧ (∀ s r c,
       s !! MPU.makeId r c = None →
       MPU.ensure r c s = Returns (Memristor 0 []) (<[MPU.makeId r c := Memristor 0 []]> s))
  ∧ (∀ s t target v s', MPU.MNOT t target s = Returns v s' → v = 0 ∨ v = 1)
  ∧ (∀ s t target a b v s', MPU.MNOR t target a b s = Returns v s' → v = 0 ∨ v = 1).
Proof.
  split_and!.
  - assert (Hall : ∀ ks s, binary s → binary (perform_all ks s)).
    { induction ks as [|k ks IH]; intros s Hs; simpl; [done|].
      by apply IH, binary_perform. }
    intros ks. pose proof (Hall ks ∅ binary_empty) as Hb. split; [done|].
    intros r c. unfold MPU.peek.
    destruct (perform_all ks ∅ !! MPU.makeId r c) eqn:E; [by eapply Hb|by left].
  - intros s t r c val. rewrite setState_returns. simpl.
    by rewrite peek_insert, decide_True.
  - intros s r c Hnone. unfold MPU.ensure. by rewrite Hnone.
  - intros s t [tg|] v s'; [|done]. rewrite MNOT_returns.
    intros [= <- _]. destruct (truthyZ _); auto.
  - intros s t target [ca|] [cb|] v s'; try done.
    + destruct target as [tg|].
      * rewrite MNOR_returns. intros [= <- _]. unfold nor_bit.
        destruct (truthyZ _); auto.
      * unfold MPU.MNOR, mbind, M_bind, deref, mret, M_ret, throw.
        by rewrite !ensure_returns.
    + unfold MPU.MNOR, mbind, M_bind, deref, mret, M_ret, throw.
      by rewrite !ensure_returns.
Qed.

(** ** Running the NOT gate *)

Lemma runGate_NOT_run (s : store) (clock : nat → Z) (a b : Z) :
  ∃ s', App.runGate "NOT" (Inputs a b) clock s = Returns 0 s'
        ∧ MPU.peek s' 0 0 = (if truthyZ a then 1 else 0)
        ∧ MPU.peek s' 0 2 = 1
        ∧ MPU.peek s' 0 3 = 0.
Proof.
  unfold App.runGate.
  change (GATES "NOT") with (Own Catalog.NOT).
  cbn [input_A input_B].
  generalize (truthyZ a) (truthyZ b). intros x y.
  destruct x, y; eexists; (split; [vm_compute; reflexivity|]); vm_compute; done.
Qed.

(** ** Facts about binary64 arithmetic *)

Section FloatFacts.
#[local] Open Scope float_scope.

Lemma float_sub_zero (x : float) : x - 0 = x.
Proof.
  apply Prim2SF_inj. rewrite sub_spec.
  change (Prim2SF 0) with (S754_zero false).
  by destruct (Prim2SF x) as [[|]|[|]| |s m e].
Qed.

Lemma SFmul_comm (x y : spec_float) : SF64mul x y = SF64mul y x.
Proof.
  destruct x as [sx|sx| |sx mx ex], y as [sy|sy| |sy my ey];
    try (cbn; by rewrite ?(xorb_comm sx sy)).
  unfold SF64mul, SFmul.
  by rewrite (xorb_comm sx sy), (Pos.mul_comm mx my), (Z.add_comm ex ey).
Qed.

Lemma float_mul_comm (x y : float) : x * y = y * x.
Proof. apply Prim2SF_inj. rewrite !mul_spec. apply SFmul_comm. Qed.

Lemma SFltb_irrefl (x : spec_float) : SFltb x x = false.
Proof.
  unfold SFltb. destruct x as [s|[|]| |[|] m e]; simpl; try done.
  - by rewrite Z.compare_refl, Pos.compare_cont_refl.
  - by rewrite Z.compare_refl, Pos.compare_cont_refl.
Qed.

Lemma float_ltb_irrefl (x : float) : (x <? x) = false.
Proof. rewrite FloatAxioms.ltb_spec. apply SFltb_irrefl. Qed.

Lemma SFeqb_not_ltb (x y : spec_float) : SFeqb x y = true → SFltb y x = false.
Proof.
  unfold SFeqb, SFltb.
  destruct x as [sx|[|]| |[|] mx ex], y as [sy|[|]| |[|] my ey]; simpl; try done.
  - destruct (Z.compare_spec ex ey) as [->| |]; try done.
    rewrite Z.compare_refl.
    destruct (Pos.compare_cont Eq mx my) eqn:Hm; try done.
    change ((mx ?= my)%positive = Eq) in Hm. apply Pos.compare_eq_iff in Hm.
    subst my. by rewrite Pos.compare_cont_refl.
  - destruct (Z.compare_spec ex ey) as [->| |]; try done.
    rewrite Z.compare_refl.
    destruct (Pos.compare_cont Eq mx my) eqn:Hm; try done.
    change ((mx ?= my)%positive = Eq) in Hm. apply Pos.compare_eq_iff in Hm.
    subst my. by rewrite Pos.compare_cont_refl.
Qed.

Lemma float_eqb_not_ltb (x y : float) : (x =? y) = true → (y <? x) = false.
Proof. rewrite FloatAxioms.eqb_spec, FloatAxioms.ltb_spec. apply SFeqb_not_ltb. Qed.

(** A finite number times zero is a zero (of either sign). *)
Lemma float_mul_zero (x : float) : PrimFloat.is_finite x = true → (x * 0 =? 0) = true.
Proof.
  unfold PrimFloat.is_finite, PrimFloat.is_nan, PrimFloat.is_infinity.
  rewrite !FloatAxioms.eqb_spec, mul_spec, abs_spec.
  change (Prim2SF 0) with (S754_zero false).
  change (Prim2SF infinity) with (S754_infinity false).
  by destruct (Prim2SF x) as [[|]|[|]| |[|] m e].
Qed.

End FloatFacts.

(** ** Running the read-model effect *)

Section ReadModel.
Import Crossbar.
#[local] Open Scope float_scope.

Lemma loop_ext {S} (f g : nat → S → option S) (l : list nat) (s : S) :
  (∀ i s, f i s = g i s) → loop f l s = loop g l s.
Proof.
  intros Hfg. revert s. induction l as [|i l IH]; intros s; simpl; [done|].
  rewrite Hfg. destruct (g i s); simpl; [apply IH|done].
Qed.

Lemma well_formed_inv {A} (m : list (list A)) :
  well_formed m →
  ∃ a00 a01 a02 a03 a10 a11 a12 a13 a20 a21 a22 a23 a30 a31 a32 a33,
    m = [ [a00; a01; a02; a03]; [a10; a11; a12; a13];
          [a20; a21; a22; a23]; [a30; a31; a32; a33] ].
Proof.
  intros [Hlen Hrows].
  destruct m as [|r0 [|r1 [|r2 [|r3 [|]]]]]; try discriminate.
  apply Forall_cons in Hrows as [H0 Hrows].
  apply Forall_cons in Hrows as [H1 Hrows].
  apply Forall_cons in Hrows as [H2 Hrows].
  apply Forall_cons in Hrows as [H3 _].
  destruct r0 as [|? [|? [|? [|? [|]]]]]; try discriminate.
  destruct r1 as [|? [|? [|? [|? [|]]]]]; try discriminate.
  destruct r2 as [|? [|? [|? [|? [|]]]]]; try discriminate.
  destruct r3 as [|? [|? [|? [|? [|]]]]]; try discriminate.
  by repeat eexists.
Qed.

Lemma spec_conductance_code (RON ROFF : float) (cl : cell) :
  spec_conductance RON ROFF cl
  = if negb (selector cl) then 0
    else 1.0 / (if String.eqb (state cl) "RON" then RON else ROFF).
Proof.
  unfold spec_conductance. by destruct (selector cl), (String.eqb _ _).
Qed.

Lemma build_G_body (RON ROFF : float) (crossbar : list (list cell)) (r c : nat)
    (G : list (list float)) :
  (cell ← get2 crossbar r c;
   if negb (selector cell) then Some (set2 r c 0 G)
   else Some (set2 r c (1.0 / (if String.eqb (state cell) "RON" then RON else ROFF)) G))
  = (cell ← get2 crossbar r c; Some (set2 r c (spec_conductance RON ROFF cell) G)).
Proof.
  destruct (get2 crossbar r c) as [cl|]; simpl; [|done].
  rewrite spec_conductance_code. by destruct (negb _).
Qed.

Lemma build_G_run (RON ROFF : float) (crossbar : list (list cell)) :
  well_formed crossbar →
  App.build_G RON ROFF crossbar = Some (Spec.conductances RON ROFF crossbar).
Proof.
  intros Hwf. unfold App.build_G.
  erewrite loop_ext; last first.
  { intros r G. apply loop_ext. intros c G'. apply build_G_body. }
  destruct (well_formed_inv _ Hwf)
    as (a00&a01&a02&a03&a10&a11&a12&a13&a20&a21&a22&a23&a30&a31&a32&a33&->).
  reflexivity.
Qed.

Lemma compute_currents_run (driven : list bool) (G : list (list float)) (vDrive : float) :
  well_formed G →
  let cur := imap (λ r row, (λ g, (Spec.V_row driven vDrive r - 0) * g) <$> row) G in
  App.compute_currents driven G vDrive = Some (cur, Spec.column_totals cur).
Proof.
  intros Hwf.
  destruct (well_formed_inv _ Hwf)
    as (a00&a01&a02&a03&a10&a11&a12&a13&a20&a21&a22&a23&a30&a31&a32&a33&->).
  reflexivity.
Qed.

Lemma conductances_well_formed (RON ROFF : float) (crossbar : list (list cell)) :
  well_formed crossbar → well_formed (Spec.conductances RON ROFF crossbar).
Proof.
  intros Hwf.
  destruct (well_formed_inv _ Hwf)
    as (a00&a01&a02&a03&a10&a11&a12&a13&a20&a21&a22&a23&a30&a31&a32&a33&->).
  split; [done|]. by repeat constructor.
Qed.

End ReadModel.

Section ReadModelFacts.
Import Crossbar.
#[local] Open Scope float_scope.

Lemma get2_fmap {A B} (f : A → B) (m : list (list A)) (r c : nat) :
  get2 (fmap (M := list) (fmap (M := list) f) m) r c = f <$> get2 m r c.
Proof.
  unfold get2. rewrite list_lookup_fmap.
  destruct (m !! r) as [row|]; simpl; [|done]. apply list_lookup_fmap.
Qed.

Lemma get2_imap {A B} (h : nat → A → B) (m : list (list A)) (r c : nat) :
  get2 (imap (λ r row, h r <$> row) m) r c = h r <$> get2 m r c.
Proof.
  unfold get2. rewrite list_lookup_imap.
  destruct (m !! r) as [row|]; simpl; [|done]. apply list_lookup_fmap.
Qed.

Lemma column_totals_lookup (cur : list (list float)) (c : nat) :
  (c < 4)%nat → Spec.column_totals cur !! c = Some (column_sum cur c).
Proof.
  intros Hc. unfold Spec.column_totals. rewrite list_lookup_fmap.
  by rewrite lookup_seq_lt.
Qed.

Lemma float_ltb_nan (x : float) : (x <? nan) = false.
Proof.
  rewrite FloatAxioms.ltb_spec. change (Prim2SF nan) with S754_nan.
  unfold SFltb. by destruct (Prim2SF x).
Qed.

(** The readout of the effect is the readout of the specification. *)
Lemma readout_spec (RON : float) (blTotals : list float) (vDrive : float) :
  App.readout RON blTotals vDrive = Spec.readout RON blTotals vDrive.
Proof.
  unfold App.readout, Spec.readout. rewrite (float_mul_comm 0.35).
  destruct (blTotals !! 0%nat); simpl; [done|]. by rewrite float_ltb_nan.
Qed.

Lemma truthyZ_bit (b : bool) : truthyZ (if b then 1 else 0) = b.
Proof. by destruct b. Qed.

(** On a 4 by 4 crossbar the effect computes what the specification's
    [computeCurrents] and [readout] describe. *)
Lemma recompute_run (RON ROFF : float) (i : inputs) (crossbar : list (list cell))
    (vDrive : float) :
  well_formed crossbar →
  let cur := Spec.cell_currents RON ROFF crossbar (Spec.drive i) vDrive in
  App.recompute_with RON ROFF i crossbar vDrive =
    Some {| App.newDriven := Spec.drive i;
            App.G := Spec.conductances RON ROFF crossbar;
            App.currents := cur;
            App.blTotals := Spec.column_totals cur;
            App.out := Spec.readout RON (Spec.column_totals cur) vDrive |}.
Proof.
  intros Hwf cur. unfold App.recompute_with.
  rewrite build_G_run by done. simpl.
  rewrite !truthyZ_bit. fold (Spec.drive i).
  rewrite compute_currents_run by (by apply conductances_well_formed). simpl.
  by rewrite readout_spec.
Qed.

Lemma set2_well_formed {A} (r c : nat) (x : A) (m : list (list A)) :
  well_formed m → well_formed (set2 r c x m).
Proof.
  intros [Hlen Hrows]. unfold set2. split.
  - by rewrite length_alter.
  - apply Forall_alter; [done|]. intros row _ Hrow. by rewrite length_insert.
Qed.

Lemma get2_set2 {A} (r c : nat) (x y : A) (m : list (list A)) :
  get2 m r c = Some y → get2 (set2 r c x m) r c = Some x.
Proof.
  unfold get2, set2. rewrite list_lookup_alter_eq.
  destruct (m !! r) as [row|]; simpl; [|done].
  intros Hy. apply list_lookup_insert_eq. by eapply lookup_lt_Some.
Qed.

(** Toggling the selector of an existing cell. *)
Lemma toggleSelector_run (r c : nat) (cl : cell) (m : list (list cell)) :
  well_formed m → get2 m r c = Some cl →
  ∃ m', toggleSelector r c m = Some m'
        ∧ well_formed m'
        ∧ get2 m' r c = Some {| state := state cl; selector := negb (selector cl) |}.
Proof.
  intros Hwf Hcl. unfold toggleSelector. rewrite Hcl. simpl.
  eexists. split_and!; [done|by apply set2_well_formed|by eapply get2_set2].
Qed.

(** The current through a cell whose selector is disabled is a zero. *)
Lemma disabled_cell_current (RON ROFF : float) (m : list (list cell)) (driven : list bool)
    (vDrive : float) (r c : nat) (cl : cell) :
  get2 m r c = Some cl → selector cl = false → PrimFloat.is_finite vDrive = true →
  ∃ x, get2 (Spec.cell_currents RON ROFF m driven vDrive) r c = Some x
       ∧ (x =? 0) = true.
Proof.
  intros Hcl Hsel Hfin. unfold Spec.cell_currents, Spec.conductances.
  rewrite get2_imap, get2_fmap, Hcl. simpl. eexists. split; [done|].
  unfold spec_conductance. rewrite Hsel, float_sub_zero. unfold Spec.V_row.
  destruct (default false _); by apply float_mul_zero.
Qed.

End ReadModelFacts.

(** ** The crossbar read model *)

Section ReadModelClaims.
Import Crossbar.
#[local] Open Scope float_scope.

Lemma initial_well_formed : well_formed initial.
Proof. split; [reflexivity|]. repeat constructor. Qed.

Lemma updateCrossbar_well_formed (gate : string) (A B : Z) (output : option Z) :
  well_formed (updateCrossbar gate A B output).
Proof. split; [reflexivity|]. repeat constructor. Qed.

(** C3. The readout of the effect is 1 exactly when the total current of
    column 0 strictly exceeds 0.35 × (vDrive / R_low), and 0 otherwise; a
    total equal to the threshold reads 0. *)
Theorem readout_strict_threshold (RON ROFF : float) (i : inputs)
    (crossbar : list (list cell)) (vDrive : float) :
  well_formed crossbar →
  ∃ res bl0,
    App.recompute_with RON ROFF i crossbar vDrive = Some res
    ∧ App.blTotals res !! 0%nat = Some bl0
    ∧ bl0 = column_sum (App.currents res) 0
    ∧ (App.out res = 1%Z ↔ (0.35 * (vDrive / RON) <? bl0) = true)
    ∧ (App.out res = 0%Z ↔ (0.35 * (vDrive / RON) <? bl0) = false)
    ∧ (bl0 = 0.35 * (vDrive / RON) → App.out res = 0%Z)
    ∧ ((bl0 =? 0.35 * (vDrive / RON)) = true → App.out res = 0%Z).
Proof.
  intros Hwf. eexists _, _. split; [by apply recompute_run|].
  cbn [App.blTotals App.out App.currents].
  split; [by apply column_totals_lookup; lia|]. split; [done|].
  unfold Spec.readout. rewrite column_totals_lookup by lia.
  cbn [default from_option id].
  set (bl0 := column_sum _ 0). set (thr := 0.35 * (vDrive / RON)).
  split_and!.
  - by destruct (thr <? bl0).
  - by destruct (thr <? bl0).
  - intros ->. by rewrite float_ltb_irrefl.
  - intros Heq. by rewrite (float_eqb_not_ltb _ _ Heq).
Qed.

Lemma readout_strict_threshold_witness :
  well_formed initial
  ∧ ∃ res bl0,
      App.recompute_with App.RON App.ROFF (Inputs 1 0) initial 1 = Some res
      ∧ App.blTotals res !! 0%nat = Some bl0
      ∧ bl0 = column_sum (App.currents res) 0
      ∧ (App.out res = 1%Z ↔ (0.35 * (1 / App.RON) <? bl0) = true)
      ∧ (App.out res = 0%Z ↔ (0.35 * (1 / App.RON) <? bl0) = false)
      ∧ (bl0 = 0.35 * (1 / App.RON) → App.out res = 0%Z)
      ∧ ((bl0 =? 0.35 * (1 / App.RON)) = true → App.out res = 0%Z).
Proof.
  split; [apply initial_well_formed|].
  apply (readout_strict_threshold App.RON App.ROFF (Inputs 1 0) initial 1).
  apply initial_well_formed.
Defined.

(** C4. On every 4 × 4 crossbar, for every input pair and drive voltage: a
    cell's conductance is 0 when its selector is disabled and otherwise
    1/R_low or 1/R_high by its resistance state; its current is
    (V_row − 0) × conductance with V_row the drive voltage on a driven row
    and 0 on the others; a column's total is the sum of its cells'
    currents over the rows.  With row 0 driven at V and cell (0,0)
    low-resistance and selected, the current at (0,0) is V × (1/R_low),
    the product the model prescribes, and at the drive the app applies
    (V = 1, R_low = 1000) it is the double V / R_low; a cell whose
    selector is disabled, or gets disabled by [toggleSelector], carries a
    zero current for every drive that is a real number (a finite
    double). *)
Theorem crossbar_current_model (RON ROFF : float) (i : inputs)
    (crossbar : list (list cell)) (vDrive : float) :
  well_formed crossbar →
  ∃ res,
    App.recompute_with RON ROFF i crossbar vDrive = Some res
    ∧ App.newDriven res = Spec.drive i
    ∧ (∀ r c cl, get2 crossbar r c = Some cl →
         get2 (App.G res) r c = Some (spec_conductance RON ROFF cl)
         ∧ get2 (App.currents res) r c
           = Some ((Spec.V_row (Spec.drive i) vDrive r - 0) * spec_conductance RON ROFF cl))
    ∧ (∀ c, (c < 4)%nat → App.blTotals res !! c = Some (column_sum (App.currents res) c))
    ∧ (∀ cl, get2 crossbar 0 0 = Some cl →
         truthyZ (input_A i) = true → state cl = "RON" → selector cl = true →
         get2 (App.currents res) 0 0 = Some (vDrive * (1 / RON))
         ∧ (RON = App.RON → vDrive = App.DEFAULT_VDRIVE →
            get2 (App.currents res) 0 0 = Some (vDrive / RON)))
    ∧ (∀ r c cl, get2 crossbar r c = Some cl →
         selector cl = false → PrimFloat.is_finite vDrive = true →
         ∃ x, get2 (App.currents res) r c = Some x ∧ (x =? 0) = true)
    ∧ (∀ r c cl, get2 crossbar r c = Some cl →
         selector cl = true → PrimFloat.is_finite vDrive = true →
         ∃ crossbar' res' x,
           toggleSelector r c crossbar = Some crossbar'
           ∧ App.recompute_with RON ROFF i crossbar' vDrive = Some res'
           ∧ get2 (App.currents res') r c = Some x ∧ (x =? 0) = true).
Proof.
  intros Hwf. eexists. split; [by apply recompute_run|].
  cbn [App.newDriven App.G App.blTotals App.out App.currents].
  split; [done|].
  assert (Hcell : ∀ r c cl, get2 crossbar r c = Some cl →
    get2 (Spec.conductances RON ROFF crossbar) r c = Some (spec_conductance RON ROFF cl)
    ∧ get2 (Spec.cell_currents RON ROFF crossbar (Spec.drive i) vDrive) r c
      = Some ((Spec.V_row (Spec.drive i) vDrive r - 0) * spec_conductance RON ROFF cl)).
  { intros r c cl Hcl. unfold Spec.cell_currents, Spec.conductances.
    rewrite get2_imap, get2_fmap, Hcl. done. }
  split_and!.
  - done.
  - intros c Hc. by apply column_totals_lookup.
  - intros cl Hcl HA Hst Hsel. destruct (Hcell _ _ _ Hcl) as [_ ->].
    unfold Spec.V_row, Spec.drive, spec_conductance. simpl.
    rewrite HA, Hst, Hsel, float_sub_zero. simpl. split; [done|].
    by intros -> ->.
  - intros r c cl Hcl Hsel Hfin. by eapply disabled_cell_current.
  - intros r c cl Hcl Hsel Hfin.
    destruct (toggleSelector_run r c cl crossbar Hwf Hcl) as (cb' & Htog & Hwf' & Hcl').
    destruct (disabled_cell_current RON ROFF cb' (Spec.drive i) vDrive r c _ Hcl')
      as (x & Hx & Hzero); [by rewrite Hsel|done|].
    eexists cb', _, x. split; [done|]. split; [by apply recompute_run|].
    by cbn [App.currents].
Qed.

End ReadModelClaims.

Section ReadModelAgreement.
Import Crossbar.
#[local] Open Scope float_scope.

Lemma crossbar_current_model_witness :
  well_formed (updateCrossbar "AND" 1 0 (Some 0%Z))
  ∧ ∃ res,
      App.recompute_with App.RON App.ROFF (Inputs 1 0) (updateCrossbar "AND" 1 0 (Some 0%Z)) 1
        = Some res
      ∧ App.newDriven res = Spec.drive (Inputs 1 0)
      ∧ (∀ r c cl, get2 (updateCrossbar "AND" 1 0 (Some 0%Z)) r c = Some cl →
           get2 (App.G res) r c = Some (spec_conductance App.RON App.ROFF cl)
           ∧ get2 (App.currents res) r c
             = Some ((Spec.V_row (Spec.drive (Inputs 1 0)) 1 r - 0)
                     * spec_conductance App.RON App.ROFF cl))
      ∧ (∀ c, (c < 4)%nat →
           App.blTotals res !! c = Some (column_sum (App.currents res) c))
      ∧ (∀ cl, get2 (updateCrossbar "AND" 1 0 (Some 0%Z)) 0 0 = Some cl →
           truthyZ (input_A (Inputs 1 0)) = true → state cl = "RON" →
           selector cl = true →
           get2 (App.currents res) 0 0 = Some (1 * (1 / App.RON))
           ∧ (App.RON = App.RON → 1 = App.DEFAULT_VDRIVE →
              get2 (App.currents res) 0 0 = Some (1 / App.RON)))
      ∧ (∀ r c cl, get2 (updateCrossbar "AND" 1 0 (Some 0%Z)) r c = Some cl →
           selector cl = false → PrimFloat.is_finite 1 = true →
           ∃ x, get2 (App.currents res) r c = Some x ∧ (x =? 0) = true)
      ∧ (∀ r c cl, get2 (updateCrossbar "AND" 1 0 (Some 0%Z)) r c = Some cl →
           selector cl = true → PrimFloat.is_finite 1 = true →
           ∃ crossbar' res' x,
             toggleSelector r c (updateCrossbar "AND" 1 0 (Some 0%Z)) = Some crossbar'
             ∧ App.recompute_with App.RON App.ROFF (Inputs 1 0) crossbar' 1 = Some res'
             ∧ get2 (App.currents res') r c = Some x ∧ (x =? 0) = true).
Proof.
  split; [apply updateCrossbar_well_formed|].
  apply (crossbar_current_model App.RON App.ROFF (Inputs 1 0)
           (updateCrossbar "AND" 1 0 (Some 0%Z)) 1).
  apply updateCrossbar_well_formed.
Defined.

(** At rows = cols = 4 the phases of the memo are those of the effect. *)
Lemma advanced_build_G (RON ROFF : float) (m : list (list cell)) :
  CrossbarAdvanced.build_G RON ROFF 4 4 m = App.build_G RON ROFF m.
Proof. reflexivity. Qed.

Lemma advanced_compute_currents (driven : list bool) (G : list (list float))
    (vDrive : float) :
  CrossbarAdvanced.compute_currents 4 4 driven G vDrive
  = App.compute_currents driven G vDrive.
Proof. reflexivity. Qed.

Lemma advanced_max_current (I : list (list float)) :
  well_formed I → is_Some (CrossbarAdvanced.max_current 4 4 I).
Proof.
  intros Hwf.
  destruct (well_formed_inv _ Hwf)
    as (a00&a01&a02&a03&a10&a11&a12&a13&a20&a21&a22&a23&a30&a31&a32&a33&->).
  by eexists.
Qed.

Lemma cell_currents_well_formed (RON ROFF : float) (crossbar : list (list cell))
    (driven : list bool) (vDrive : float) :
  well_formed crossbar →
  well_formed (Spec.cell_currents RON ROFF crossbar driven vDrive).
Proof.
  intros Hwf.
  destruct (well_formed_inv _ Hwf)
    as (a00&a01&a02&a03&a10&a11&a12&a13&a20&a21&a22&a23&a30&a31&a32&a33&->).
  split; [done|]. by repeat constructor.
Qed.

(** C10. Given the same 4 × 4 cells, the same driven-row vector, the same
    drive voltage and the same R_on/R_off constants, the effect of the app
    and the memo of [CrossbarAdvanced] compute the same conductances, the
    same per-cell currents and the same per-column totals. *)
Theorem crossbar_models_agree (RON ROFF : float) (i : inputs)
    (crossbar : list (list cell)) (vDrive : float) :
  well_formed crossbar →
  ∃ eff memo,
    App.recompute_with RON ROFF i crossbar vDrive = Some eff
    ∧ CrossbarAdvanced.sim_with RON ROFF 4 4 crossbar (App.newDriven eff) vDrive
      = Some memo
    ∧ CrossbarAdvanced.G memo = App.G eff
    ∧ CrossbarAdvanced.I memo = App.currents eff
    ∧ CrossbarAdvanced.BL_total memo = App.blTotals eff.
Proof.
  intros Hwf.
  destruct (advanced_max_current
              (Spec.cell_currents RON ROFF crossbar (Spec.drive i) vDrive))
    as [mx Hmx]; [by apply cell_currents_well_formed|].
  eexists _, _. split; [by apply recompute_run|].
  cbn [App.newDriven App.G App.blTotals App.currents].
  unfold CrossbarAdvanced.sim_with.
  rewrite advanced_build_G, build_G_run by done. cbn [mbind option_bind].
  rewrite advanced_compute_currents,
    compute_currents_run by (by apply conductances_well_formed).
  cbn [mbind option_bind].
  fold (Spec.cell_currents RON ROFF crossbar (Spec.drive i) vDrive).
  rewrite Hmx. cbn [mbind option_bind]. done.
Qed.

Lemma crossbar_models_agree_witness :
  well_formed (updateCrossbar "AND" 1 1 (Some 1%Z))
  ∧ ∃ eff memo,
      App.recompute_with CrossbarAdvanced.RON CrossbarAdvanced.ROFF (Inputs 1 1)
        (updateCrossbar "AND" 1 1 (Some 1%Z)) 0.5 = Some eff
      ∧ CrossbarAdvanced.sim (4%nat) (4%nat) (updateCrossbar "AND" 1 1 (Some 1%Z))
          (App.newDriven eff) 0.5 = Some memo
      ∧ CrossbarAdvanced.G memo = App.G eff
      ∧ CrossbarAdvanced.I memo = App.currents eff
      ∧ CrossbarAdvanced.BL_total memo = App.blTotals eff.
Proof.
  split; [apply updateCrossbar_well_formed|].
  apply (crossbar_models_agree CrossbarAdvanced.RON CrossbarAdvanced.ROFF
           (Inputs 1 1) (updateCrossbar "AND" 1 1 (Some 1%Z)) 0.5).
  apply updateCrossbar_well_formed.
Defined.

(** With the constants each module declares, the two models give different
    currents for the same cells and drive. *)
Lemma own_constants_differ :
  ∃ eff memo,
    App.recompute (Inputs 1 0) (updateCrossbar "AND" 1 0 (Some 0%Z)) 1 = Some eff
    ∧ CrossbarAdvanced.sim (4%nat) (4%nat) (updateCrossbar "AND" 1 0 (Some 0%Z))
        (App.newDriven eff) 1 = Some memo
    ∧ get2 (App.currents eff) 0 0 = Some 0.001
    ∧ get2 (CrossbarAdvanced.I memo) 0 0 = Some 0.0005.
Proof. eexists _, _. vm_compute. done. Qed.

End ReadModelAgreement.

(** ** The interpreter loop *)

(** C2 (what the code does). With the gate NOT selected, [runGate] resets
    the grid, seeds cell (0,0) with A, executes ISO and MNOT (0,2), and
    reports cell (0,3), which nothing has written: the reported output is 0
    for every A, so also for A = 0, where NOT's truth-function gives 1.
    The cell the catalog names as NOT's output, (0,2), ends at 1 for every
    A. *)
Theorem runGate_NOT_reports_zero (s : store) (clock : nat → Z) (a b : Z) :
  ∃ s',
    App.runGate "NOT" (Inputs a b) clock s = Returns 0 s'
    ∧ MPU.peek s' 0 0 = (if truthyZ a then 1 else 0)
    ∧ MPU.peek s' 0 2 = 1
    ∧ computeTruth "NOT" 0 b = TNum 1.
Proof.
  destruct (runGate_NOT_run s clock a b) as (s' & Hrun & H00 & H02 & _).
  by exists s'.
Qed.

Lemma execute_unrecognized (t : Z) (ins : instruction) (s : store) :
  op ins ∉ recognized → App.execute t ins s = Returns () s.
Proof.
  unfold recognized. rewrite !not_elem_of_cons.
  intros (H1 & H2 & H3 & H4 & H5 & H6 & _).
  unfold App.execute.
  by rewrite !(proj2 (String.eqb_neq _ _)).
Qed.

Lemma step_unrecognized (t : Z) (ins : instruction) (s : store) :
  op ins ∉ recognized → App.step t ins s = Returns () (ensured 0 3 s).
Proof.
  intros Hop. unfold App.step.
  rewrite bind_run, execute_unrecognized by done.
  unfold MPU.snapshot. rewrite !bind_run, getState_returns. done.
Qed.

(** The claim of C7 as stated fails for gate names: running a gate the
    catalog does not have throws. *)
Lemma runGate_unknown_gate_throws :
  assoc "FOO" catalog = None
  ∧ returned (App.runGate "FOO" (Inputs 0 0) (λ _, 0) ∅) = None
  ∧ returned (App.selectGate "FOO" ∅) = None.
Proof. by vm_compute. Qed.

(** A name the catalog inherits from [Object.prototype] is not in the
    catalog either; selecting it clears the grid, and running it seeds two
    cells before it throws. *)
Lemma inherited_gate_name_mutates :
  let s0 : store := <[MPU.makeId 0 2 := Memristor 1 []]> ∅ in
  assoc "toString" catalog = None
  ∧ App.selectGate "toString" s0 = Returns () ∅
  ∧ ∃ s', App.runGate "toString" (Inputs 1 0) (λ _, 0) s0 = Throws s'
          ∧ MPU.peek s0 0 2 = 1 ∧ MPU.peek s' 0 2 = 0
          ∧ MPU.peek s0 0 0 = 0 ∧ MPU.peek s' 0 0 = 1.
Proof. split_and!; [done|done|]. eexists. by vm_compute. Qed.

(** C7 (amended). An instruction whose op-code the interpreter does not
    recognize changes no cell and raises nothing: the [switch] leaves the
    store as it is, and the rest of the loop turn only creates cell (0,3)
    lazily, so [getState] reports the same state everywhere.  Selecting or
    running a gate name for which the catalog lookup is [undefined] changes
    no cell either, but raises a [TypeError]. *)
Theorem unknown_opcode_or_gate (t : Z) (ins : instruction) (gate_name : string)
    (i : inputs) (clock : nat → Z) (s : store) :
  op ins ∉ recognized → GATES gate_name = Missing →
  App.execute t ins s = Returns () s
  ∧ (∃ s', App.step t ins s = Returns () s'
           ∧ extends s s'
           ∧ ∀ r c, MPU.peek s' r c = MPU.peek s r c)
  ∧ App.runGate gate_name i clock s = Throws s
  ∧ App.selectGate gate_name s = Throws s.
Proof.
  intros Hop Hgate. split_and!.
  - by apply execute_unrecognized.
  - exists (ensured 0 3 s). split_and!.
    + by apply step_unrecognized.
    + apply extends_ensured.
    + intros r c. apply peek_ensured.
  - unfold App.runGate. by rewrite Hgate.
  - unfold App.selectGate. by rewrite Hgate.
Qed.

Lemma unknown_opcode_or_gate_witness :
  ("NOP" ∉ recognized) ∧ GATES "FOO" = Missing
  ∧ App.execute 0 (Ins "NOP" None) ∅ = Returns () ∅
  ∧ (∃ s', App.step 0 (Ins "NOP" None) ∅ = Returns () s'
           ∧ extends ∅ s'
           ∧ ∀ r c, MPU.peek s' r c = MPU.peek ∅ r c)
  ∧ App.runGate "FOO" (Inputs 0 0) (λ _, 0) ∅ = Throws ∅
  ∧ App.selectGate "FOO" ∅ = Throws ∅.
Proof.
  assert (Hop : "NOP" ∉ recognized).
  { unfold recognized. rewrite !not_elem_of_cons.
    split_and!; try discriminate. apply not_elem_of_nil. }
  assert (Hgate : GATES "FOO" = Missing) by (vm_compute; reflexivity).
  split; [exact Hop|]. split; [exact Hgate|].
  apply (unknown_opcode_or_gate 0 (Ins "NOP" None) "FOO" (Inputs 0 0) (λ _, 0) ∅ Hop Hgate).
Defined.

(** * Further properties of the simulator *)

Lemma view_write_same (s : store) (r c : nat) (m : memristor) :
  view (<[MPU.makeId r c := m]> s) (MPU.makeId r c) = m.
Proof. by rewrite view_insert, decide_True. Qed.

Lemma peek_insert_same (s : store) (r c : nat) (m : memristor) :
  MPU.peek (<[MPU.makeId r c := m]> s) r c = state m.
Proof. by rewrite peek_insert, decide_True. Qed.

Lemma peek_insert_other (s : store) (r c r' c' : nat) (m : memristor) :
  Coord r' c' ≠ Coord r c → MPU.peek (<[MPU.makeId r c := m]> s) r' c' = MPU.peek s r' c'.
Proof. intros Hne. rewrite peek_insert, decide_False; [done|]. congruence. Qed.

Lemma makeId_ne (r c r' c' : nat) :
  Coord r c ≠ Coord r' c' → MPU.makeId r c ≠ MPU.makeId r' c'.
Proof. intros Hne [-> ->]%makeId_inj. done. Qed.

Lemma ensured_id (r c : nat) (s : store) :
  is_Some (s !! MPU.makeId r c) → ensured r c s = s.
Proof. intros [m Hm]. unfold ensured. by rewrite Hm. Qed.

Lemma ensured_new (r c : nat) (s : store) :
  s !! MPU.makeId r c = None → ensured r c s = <[MPU.makeId r c := MPU.fresh]> s.
Proof. intros Hm. unfold ensured. by rewrite Hm. Qed.

Lemma double_complement (b : bool) :
  (if truthyZ (if b then 0 else 1) then 0 else 1) = (if b then 1 else 0).
Proof. by destruct b. Qed.

(** X1. [MNOT(target)] returns and stores the complement of the target's
    state, leaves every other coordinate as it was, and a second [MNOT]
    brings back the truth value the cell had (the very state when that
    was 0 or 1). *)
Theorem invert_flips_target_only (s : store) (t t' : Z) (target : coord) :
  let p := MPU.peek s (coord_r target) (coord_c target) in
  ∃ v s',
    MPU.MNOT t (Some target) s = Returns v s'
    ∧ v = (if truthyZ p then 0 else 1)
    ∧ MPU.peek s' (coord_r target) (coord_c target) = v
    ∧ (∀ r c, Coord r c ≠ target → MPU.peek s' r c = MPU.peek s r c)
    ∧ ∃ s'',
        MPU.MNOT t' (Some target) s' = Returns (if truthyZ p then 1 else 0) s''
        ∧ (p = 0 ∨ p = 1 → MPU.peek s'' (coord_r target) (coord_c target) = p)
        ∧ (∀ r c, Coord r c ≠ target → MPU.peek s'' r c = MPU.peek s r c).
Proof.
  intros p. destruct target as [tr tc]. simpl in *.
  eexists _, _. split; [apply MNOT_returns|]. simpl. fold p.
  split; [done|]. split; [apply peek_insert_same|].
  split.
  { intros r c Hne. by rewrite peek_insert_other, peek_ensured. }
  match goal with |- context [MPU.MNOT t' _ ?s1] =>
    pose proof (MNOT_returns t' (Coord tr tc) s1) as H2 end.
  simpl in H2. rewrite peek_insert_same in H2. simpl in H2. fold p in H2.
  rewrite !(double_complement (truthyZ p)) in H2.
  eexists. split; [exact H2|]. split.
  - intros Hp. rewrite peek_insert_same. simpl.
    by destruct Hp as [-> | ->].
  - intros r c Hne.
    by rewrite peek_insert_other, peek_ensured, peek_insert_other, peek_ensured.
Qed.

(** X2. [setState] followed by [getState] at the same coordinate returns
    the coerced bit and changes nothing more; a second [setState]
    overwrites the first; no other coordinate is affected. *)
Theorem setState_getState (s : store) (t t' : Z) (r c : nat) (val val' : jsval) :
  ∃ s1 s2,
    MPU.setState t r c val s = Returns () s1
    ∧ MPU.getState r c s1 = Returns (if truthy val then 1 else 0) s1
    ∧ MPU.setState t' r c val' s1 = Returns () s2
    ∧ MPU.getState r c s2 = Returns (if truthy val' then 1 else 0) s2
    ∧ ∀ r' c', Coord r' c' ≠ Coord r c →
        MPU.peek s1 r' c' = MPU.peek s r' c' ∧ MPU.peek s2 r' c' = MPU.peek s r' c'.
Proof.
  eexists _, _. split; [apply setState_returns|].
  split. { rewrite getState_returns, !ensured_insert, peek_insert_same. reflexivity. }
  split; [apply setState_returns|].
  split. { rewrite getState_returns, !ensured_insert, peek_insert_same. reflexivity. }
  intros r' c' Hne.
  by rewrite !peek_insert_other, !peek_ensured, !peek_insert_other, !peek_ensured.
Qed.

(** X3. [getState] is a read as far as any later [getState] can tell: it
    returns the stored state, or 0 for a coordinate never seen, which it
    then creates; every stored cell stays as it is; asking again gives the
    same answer and changes nothing. *)
Theorem getState_reads (s : store) (r c : nat) :
  ∃ s',
    MPU.getState r c s = Returns (MPU.peek s r c) s'
    ∧ extends s s'
    ∧ (∀ m, s !! MPU.makeId r c = Some m → s' = s ∧ MPU.peek s r c = state m)
    ∧ (s !! MPU.makeId r c = None →
         s' = <[MPU.makeId r c := Memristor 0 []]> s ∧ MPU.peek s r c = 0)
    ∧ MPU.getState r c s' = Returns (MPU.peek s r c) s'.
Proof.
  exists (ensured r c s). split; [apply getState_returns|].
  split; [apply extends_ensured|]. split_and!.
  - intros m Hm. split; [apply ensured_id; by eexists|].
    unfold MPU.peek. by rewrite Hm.
  - intros Hm. split; [by apply ensured_new|]. unfold MPU.peek. by rewrite Hm.
  - rewrite getState_returns, peek_ensured. f_equal.
    apply ensured_id. rewrite ensured_present. by eexists.
Qed.

(** ** Histories *)

Lemma settled_fresh : settled MPU.fresh.
Proof. done. Qed.

Lemma settled_write (m : memristor) (v : Z) (e : hist_entry) :
  h_val e = v → settled {| state := v; history := history m ++ [e] |}.
Proof. intros <-. unfold settled. simpl. by rewrite last_snoc. Qed.

Lemma all_settled_insert (s : store) (id : string) (m : memristor) :
  all_settled s → settled m → all_settled (<[id := m]> s).
Proof.
  intros Hs Hm id' m'. rewrite lookup_insert. case_decide; [|by apply Hs].
  by intros [= <-].
Qed.

Lemma all_settled_ensured (r c : nat) (s : store) :
  all_settled s → all_settled (ensured r c s).
Proof.
  intros Hs. unfold ensured. destruct (s !! _); [done|].
  by apply all_settled_insert.
Qed.

Lemma MNOR_partial (t : Z) (target a b : option coord) (s : store) :
  (∃ ta ca cb, target = Some ta ∧ a = Some ca ∧ b = Some cb)
  ∨ final_store (MPU.MNOR t target a b s) = s
  ∨ (∃ ca, final_store (MPU.MNOR t target a b s)
           = ensured (coord_r ca) (coord_c ca) s)
  ∨ (∃ ca cb, final_store (MPU.MNOR t target a b s)
              = ensured (coord_r cb) (coord_c cb) (ensured (coord_r ca) (coord_c ca) s)).
Proof.
  destruct a as [ca|]; [|by right; left].
  destruct b as [cb|].
  2:{ right; right; left. exists ca.
      unfold MPU.MNOR, mbind, M_bind, deref, mret, M_ret, throw.
      by rewrite ensure_returns. }
  destruct target as [ta|]; [left; by eexists _, _, _|].
  right; right; right. exists ca, cb.
  unfold MPU.MNOR, mbind, M_bind, deref, mret, M_ret, throw.
  by rewrite !ensure_returns.
Qed.

Lemma all_settled_perform (k : call) (s : store) :
  all_settled s → all_settled (perform k s).
Proof.
  intros Hs. destruct k; simpl; try done.
  - destruct (resetGrid_returns rows cols s) as (s' & -> & Hall & _). simpl.
    intros id m Hm. rewrite (Hall _ _ Hm). apply settled_fresh.
  - rewrite setState_returns. simpl.
    apply all_settled_insert; [by apply all_settled_ensured|by apply settled_write].
  - rewrite getState_returns. by apply all_settled_ensured.
  - destruct target as [tg|]; [|done]. rewrite MNOT_returns. simpl.
    apply all_settled_insert; [by apply all_settled_ensured|by apply settled_write].
  - destruct (MNOR_partial t target a b s)
      as [(ta & ca & cb & -> & -> & ->) | [-> | [[ca ->] | (ca & cb & ->)]]].
    + rewrite MNOR_returns. simpl.
      apply all_settled_insert; [by do 3 apply all_settled_ensured|by apply settled_write].
    + done.
    + by apply all_settled_ensured.
    + by do 2 apply all_settled_ensured.
Qed.

(** X4. Starting from the empty simulator, after any sequence of calls the
    state of every stored cell is the value recorded by the last entry of
    its history, and 0 when its history is empty. *)
Theorem state_is_last_history_value (ks : list call) (id : string) (m : memristor) :
  perform_all ks ∅ !! id = Some m →
  state m = from_option h_val 0 (last (history m)).
Proof.
  assert (Hall : ∀ ks s, all_settled s → all_settled (perform_all ks s)).
  { clear. induction ks as [|k ks IH]; intros s Hs; simpl; [done|].
    by apply IH, all_settled_perform. }
  intros Hm. eapply (Hall ks ∅); [|done].
  intros id' m'. by rewrite lookup_empty.
Qed.

Lemma state_is_last_history_value_witness :
  perform_all [CallSetState 5 0 0 (JNum 1); CallMNOT 6 (Some (Coord 0 0))] ∅
    !! MPU.makeId 0 0
  = Some (Memristor 0 [HistEntry "SET" 5 1 None; HistEntry "MNOT" 6 0 None])
  ∧ state (Memristor 0 [HistEntry "SET" 5 1 None; HistEntry "MNOT" 6 0 None])
    = from_option h_val 0
        (last (history (Memristor 0 [HistEntry "SET" 5 1 None; HistEntry "MNOT" 6 0 None]))).
Proof.
  assert (H : perform_all [CallSetState 5 0 0 (JNum 1); CallMNOT 6 (Some (Coord 0 0))] ∅
                !! MPU.makeId 0 0
              = Some (Memristor 0 [HistEntry "SET" 5 1 None; HistEntry "MNOT" 6 0 None]))
    by (vm_compute; reflexivity).
  split; [exact H|].
  exact (state_is_last_history_value
           [CallSetState 5 0 0 (JNum 1); CallMNOT 6 (Some (Coord 0 0))]
           (MPU.makeId 0 0) _ H).
Defined.

(** ** The cells [resetGrid] leaves *)

Lemma ensure_row_store (r : nat) (cs : list nat) (s : store) :
  for_each (λ c, _ ← MPU.ensure r c; mret ()) cs s
  = Returns () (foldl (λ s c, ensured r c s) s cs).
Proof.
  revert s. induction cs as [|c cs IH]; intros s; simpl; [done|].
  rewrite bind_run, bind_run, ensure_returns. apply IH.
Qed.

Lemma ensure_rows_store (cols : nat) (rs : list nat) (s : store) :
  for_each (λ r, for_range cols (λ c, _ ← MPU.ensure r c; mret ())) rs s
  = Returns () (foldl (λ s r, foldl (λ s c, ensured r c s) s (seq 0 cols)) s rs).
Proof.
  revert s. induction rs as [|r rs IH]; intros s; simpl; [done|].
  rewrite bind_run. unfold for_range at 1. rewrite ensure_row_store. apply IH.
Qed.

Lemma dom_ensured (r c : nat) (s : store) :
  dom (ensured r c s) = {[MPU.makeId r c]} ∪ dom s.
Proof.
  unfold ensured. destruct (s !! MPU.makeId r c) eqn:E.
  - assert (MPU.makeId r c ∈ dom s) by (apply elem_of_dom; by eexists).
    apply set_eq. intros x. rewrite elem_of_union, elem_of_singleton.
    split; [by right|by intros [-> | ?]].
  - apply dom_insert_L.
Qed.

Lemma dom_ensured_row (r : nat) (cs : list nat) (s : store) :
  dom (foldl (λ s c, ensured r c s) s cs)
  = list_to_set (c ← cs; [MPU.makeId r c]) ∪ dom s.
Proof.
  revert s. induction cs as [|c cs IH]; intros s; csimpl.
  { apply set_eq. intros x. rewrite elem_of_union, elem_of_empty. tauto. }
  rewrite IH, dom_ensured. apply set_eq. intros x.
  rewrite !elem_of_union. tauto.
Qed.

Lemma dom_ensured_rows (cols : nat) (rs : list nat) (s : store) :
  dom (foldl (λ s r, foldl (λ s c, ensured r c s) s (seq 0 cols)) s rs)
  = list_to_set (r ← rs; c ← seq 0 cols; [MPU.makeId r c]) ∪ dom s.
Proof.
  revert s. induction rs as [|r rs IH]; intros s; csimpl.
  { apply set_eq. intros x. rewrite elem_of_union, elem_of_empty. tauto. }
  rewrite IH, dom_ensured_row, list_to_set_app_L. apply set_eq. intros x.
  rewrite !elem_of_union. tauto.
Qed.

Lemma elem_of_grid_ids (rows cols : nat) (id : string) :
  id ∈ grid_ids rows cols
  ↔ ∃ r c, (r < rows)%nat ∧ (c < cols)%nat ∧ id = MPU.makeId r c.
Proof.
  unfold grid_ids. rewrite list_elem_of_bind. split.
  - intros (r & (c & Hid%list_elem_of_singleton & Hc%elem_of_seq)%list_elem_of_bind
              & Hr%elem_of_seq).
    exists r, c. split_and!; [lia|lia|done].
  - intros (r & c & Hr & Hc & ->). exists r. split; [|apply elem_of_seq; lia].
    apply list_elem_of_bind. exists c. split; [by apply list_elem_of_singleton|].
    apply elem_of_seq. lia.
Qed.

Lemma NoDup_grid_ids (rows cols : nat) : NoDup (grid_ids rows cols).
Proof.
  unfold grid_ids. apply NoDup_bind; [| |apply NoDup_seq].
  - intros r1 r2 id _ _
      (c1 & ->%list_elem_of_singleton & _)%list_elem_of_bind
      (c2 & Heq%list_elem_of_singleton & _)%list_elem_of_bind.
    by apply makeId_inj in Heq as [-> _].
  - intros r _. apply NoDup_bind; [| |apply NoDup_seq].
    + intros c1 c2 id _ _ ->%list_elem_of_singleton Heq%list_elem_of_singleton.
      by apply makeId_inj in Heq as [_ ->].
    + intros c _. apply NoDup_singleton.
Qed.

Lemma length_grid_ids (rows cols : nat) :
  length (grid_ids rows cols) = (rows * cols)%nat.
Proof.
  unfold grid_ids.
  assert (Hrow : ∀ (r : nat) (cs : list nat),
            length (c ← cs; [MPU.makeId r c]) = length cs).
  { intros r cs. induction cs as [|c cs IH]; csimpl; [done|]. by rewrite IH. }
  assert (Hrows : ∀ rs : list nat,
            length (r ← rs; c ← seq 0 cols; [MPU.makeId r c])
            = (length rs * cols)%nat).
  { induction rs as [|r rs IH]; csimpl; [done|].
    by rewrite length_app, Hrow, IH, length_seq. }
  by rewrite Hrows, length_seq.
Qed.

Lemma resetGrid_domain (s s' : store) (rows cols : nat) :
  MPU.resetGrid rows cols s = Returns () s' →
  dom s' = list_to_set (grid_ids rows cols) ∧ size s' = (rows * cols)%nat.
Proof.
  intros Hrun.
  assert (Hdom : dom s' = list_to_set (grid_ids rows cols)).
  { revert Hrun. unfold MPU.resetGrid, for_range at 1.
    rewrite ensure_rows_store. intros [= <-].
    rewrite dom_ensured_rows, dom_empty_L. unfold grid_ids.
    apply set_eq. intros x. rewrite elem_of_union, elem_of_empty. tauto. }
  split; [done|].
  rewrite <-size_dom, Hdom, size_list_to_set by apply NoDup_grid_ids.
  apply length_grid_ids.
Qed.

(** X5. [resetGrid(rows, cols)] leaves exactly the rows × cols in-bounds
    cells, whatever was stored before: a cell is stored if and only if its
    id is that of an in-bounds coordinate, there are rows × cols of them,
    each with state 0 and an empty history, and the snapshot lists the
    same ids, all at 0. *)
Theorem resetGrid_exact_cells (s : store) (rows cols : nat) :
  ∃ s' snap,
    MPU.resetGrid rows cols s = Returns () s'
    ∧ MPU.snapshot s' = Returns snap s'
    ∧ (∀ id, is_Some (s' !! id)
             ↔ ∃ r c, (r < rows)%nat ∧ (c < cols)%nat ∧ id = MPU.makeId r c)
    ∧ size s' = (rows * cols)%nat
    ∧ (∀ id m, s' !! id = Some m → m = Memristor 0 [])
    ∧ size snap = (rows * cols)%nat
    ∧ (∀ id st, snap !! id = Some st → st = 0).
Proof.
  destruct (resetGrid_returns rows cols s) as (s' & Hrun & Hfresh & _).
  exists s', (state <$> s'). split; [done|]. split; [done|].
  destruct (resetGrid_domain s s' rows cols Hrun) as [Hdom Hsize].
  split_and!.
  - intros id. by rewrite <-elem_of_dom, Hdom, elem_of_list_to_set, elem_of_grid_ids.
  - done.
  - done.
  - by rewrite map_size_fmap.
  - intros id st. rewrite lookup_fmap.
    destruct (s' !! id) as [m|] eqn:Hm; [|done].
    rewrite (Hfresh _ _ Hm). by intros [= <-].
Qed.

(** X6. What the grid shows for a coordinate, read from a snapshot, is what
    [getState] would return for it at the time of the snapshot, and taking
    the snapshot changes nothing. *)
Theorem snapshot_shows_state (s : store) (r c : nat) :
  ∃ snap,
    MPU.snapshot s = Returns snap s
    ∧ App.shown snap r c = MPU.peek s r c
    ∧ returned (MPU.getState r c s) = Some (App.shown snap r c)
    ∧ dom snap = dom s.
Proof.
  exists (state <$> s). split; [done|].
  assert (Hshown : App.shown (state <$> s) r c = MPU.peek s r c).
  { unfold App.shown, MPU.peek. rewrite lookup_fmap. by destruct (s !! _). }
  split; [done|]. split; [by rewrite getState_returns, Hshown|].
  apply dom_fmap_L.
Qed.

(** ** Manual toggling *)

Lemma truthyZ_bit_val (b : bool) : truthy (bit b) = b.
Proof. by destruct b. Qed.

(** X7. [toggleCell(r, c)] stores the complement of the state the cell
    shows, leaves every other coordinate alone, and a second toggle brings
    a 0/1 state back. *)
Theorem toggleCell_flips (s : store) (t t' : Z) (r c : nat) :
  let p := MPU.peek s r c in
  ∃ s1 s2,
    App.toggleCell t r c s = Returns () s1
    ∧ MPU.peek s1 r c = (if truthyZ p then 0 else 1)
    ∧ App.toggleCell t' r c s1 = Returns () s2
    ∧ MPU.peek s2 r c = (if truthyZ p then 1 else 0)
    ∧ (p = 0 ∨ p = 1 → MPU.peek s2 r c = p)
    ∧ ∀ r' c', Coord r' c' ≠ Coord r c →
        MPU.peek s1 r' c' = MPU.peek s r' c' ∧ MPU.peek s2 r' c' = MPU.peek s r' c'.
Proof.
  intros p.
  assert (Htoggle : ∀ t s,
    App.toggleCell t r c s
    = Returns ()
        (<[MPU.makeId r c :=
             {| state := if truthyZ (MPU.peek s r c) then 0 else 1;
                history :=
                  history (view s (MPU.makeId r c))
                  ++ [HistEntry "SET" t (if truthyZ (MPU.peek s r c) then 0 else 1) None] |}]>
           (ensured r c s))).
  { intros t0 s0. unfold App.toggleCell.
    rewrite bind_run, getState_returns, setState_returns.
    rewrite truthyZ_bit_val, (ensured_id r c (ensured r c s0)), view_ensured
      by (rewrite ensured_present; by eexists).
    by destruct (truthyZ (MPU.peek s0 r c)). }
  eexists _, _. split; [apply Htoggle|]. fold p.
  split; [by rewrite peek_insert_same|].
  split; [apply Htoggle|].
  rewrite !peek_insert_same. simpl.
  split; [by destruct (truthyZ p)|].
  split. { intros [Hp | Hp]; rewrite Hp; reflexivity. }
  intros r' c' Hne.
  by rewrite !peek_insert_other, !peek_ensured, !peek_insert_other, !peek_ensured.
Qed.

(** ** Running the other gates *)

Lemma truthyZ_js_or (a b : Z) : truthyZ (js_or a b) = truthyZ a || truthyZ b.
Proof. unfold js_or. destruct (truthyZ a) eqn:Ea; simpl; [by rewrite Ea|done]. Qed.

Lemma truthyZ_js_and (a b : Z) : truthyZ (js_and a b) = truthyZ a && truthyZ b.
Proof. unfold js_and. destruct (truthyZ a) eqn:Ea; simpl; [done|by rewrite Ea]. Qed.

(** X8. With the gate OR selected, [runGate] returns, and the output it
    reports is the OR of the inputs, the value of the reference
    truth-function, for all inputs, prior grids and timestamps. *)
Theorem runGate_OR_computes_or (s : store) (clock : nat → Z) (a b : Z) :
  ∃ v s',
    App.runGate "OR" (Inputs a b) clock s = Returns v s'
    ∧ v = (if truthyZ a || truthyZ b then 1 else 0)
    ∧ computeTruth "OR" a b = TNum v
    ∧ MPU.peek s' 0 3 = v.
Proof.
  assert (Htruth : computeTruth "OR" a b = TNum (if truthyZ a || truthyZ b then 1 else 0)).
  { change (computeTruth "OR" a b) with (TNum (if truthyZ (js_or a b) then 1 else 0)).
    by rewrite truthyZ_js_or. }
  rewrite Htruth. unfold App.runGate.
  change (GATES "OR") with (Own Catalog.OR).
  cbn [input_A input_B].
  generalize (truthyZ a) (truthyZ b). intros x y.
  destruct x, y; eexists _, _; (split; [vm_compute; reflexivity|]); by vm_compute.
Qed.

(** X9. With AND or NAND selected, [runGate] returns and reports 0 for all
    inputs: the sequence inverts the B cell and a fresh cell and writes
    their NOR, so cell (0,3) is 0 whatever the inputs; the reference
    truth-functions give 1 for AND at (1,1) and for NAND at (0,0). *)
Theorem runGate_AND_NAND_report_zero (s : store) (clock : nat → Z) (a b : Z) :
  (∃ s', App.runGate "AND" (Inputs a b) clock s = Returns 0 s'
         ∧ MPU.peek s' 0 1 = (if truthyZ b then 0 else 1)
         ∧ MPU.peek s' 0 2 = 1)
  ∧ (∃ s', App.runGate "NAND" (Inputs a b) clock s = Returns 0 s'
           ∧ MPU.peek s' 0 4 = 1)
  ∧ computeTruth "AND" 1 1 = TNum 1
  ∧ computeTruth "NAND" 0 0 = TNum 1.
Proof.
  split_and!; [| |done|done].
  - unfold App.runGate. change (GATES "AND") with (Own Catalog.AND).
    cbn [input_A input_B]. generalize (truthyZ a) (truthyZ b). intros x y.
    destruct x, y; eexists; (split; [vm_compute; reflexivity|]); by vm_compute.
  - unfold App.runGate. change (GATES "NAND") with (Own Catalog.NAND).
    cbn [input_A input_B]. generalize (truthyZ a) (truthyZ b). intros x y.
    destruct x, y; eexists; (split; [vm_compute; reflexivity|]); by vm_compute.
Qed.

(** X10. With XOR or XNOR selected, [runGate] throws at its second
    instruction, an MNOR without operands: it reports no output, and leaves
    the grid reset to 2 × 4 with the inputs seeded in (0,0) and (0,1) and
    every other cell at 0. *)
Theorem runGate_XOR_XNOR_throw (gate_name : string) (s : store) (clock : nat → Z)
    (a b : Z) :
  gate_name = "XOR" ∨ gate_name = "XNOR" →
  ∃ s',
    App.runGate gate_name (Inputs a b) clock s = Throws s'
    ∧ MPU.peek s' 0 0 = (if truthyZ a then 1 else 0)
    ∧ MPU.peek s' 0 1 = (if truthyZ b then 1 else 0)
    ∧ size s' = 8%nat
    ∧ ∀ r c, Coord r c ≠ Coord 0 0 → Coord r c ≠ Coord 0 1 → MPU.peek s' r c = 0.
Proof.
  assert (Hframe : ∀ (s0 : store) (m0 m1 : memristor),
    (∀ id m, s0 !! id = Some m → m = MPU.fresh) →
    ∀ r c, Coord r c ≠ Coord 0 0 → Coord r c ≠ Coord 0 1 →
      MPU.peek (ensured 0 3
                  (<[MPU.makeId 0 1 := m1]> (ensured 0 1
                     (<[MPU.makeId 0 0 := m0]> (ensured 0 0 s0))))) r c = 0).
  { intros s0 m0 m1 Hfresh r c H0 H1.
    rewrite peek_ensured, peek_insert_other, peek_ensured, peek_insert_other,
      peek_ensured by done.
    unfold MPU.peek. destruct (s0 !! MPU.makeId r c) as [m|] eqn:Hm; [|done].
    by rewrite (Hfresh _ _ Hm). }
  intros Hname.
  destruct (resetGrid_returns 2 4 s) as (s0 & Hreset & Hfresh & _).
  destruct (resetGrid_domain s s0 2 4 Hreset) as [Hids Hsize].
  assert (Hdom : ∀ id, is_Some (s0 !! id)
                       ↔ ∃ r c, (r < 2)%nat ∧ (c < 4)%nat ∧ id = MPU.makeId r c).
  { intros id. by rewrite <-elem_of_dom, Hids, elem_of_list_to_set, elem_of_grid_ids. }
  assert (Hrun : ∀ g : gate,
    layoutRows g = 2%nat → layoutCols g = 4%nat →
    instructionSequence g (Inputs a b)
      = [Ins "ISO" None; Ins "MNOR" None; Ins "MNOT" None; Ins "COM" None] →
    ∃ s',
      (_ ← MPU.resetGrid (layoutRows g) (layoutCols g);
       _ ← MPU.setState (clock 0%nat) 0 0 (bit (truthyZ a));
       _ ← MPU.setState (clock 1%nat) 0 1 (bit (truthyZ b));
       _ ← App.run_from clock 2 (instructionSequence g (Inputs a b));
       MPU.getState 0 3) s = Throws s'
      ∧ MPU.peek s' 0 0 = (if truthyZ a then 1 else 0)
      ∧ MPU.peek s' 0 1 = (if truthyZ b then 1 else 0)
      ∧ size s' = 8%nat
      ∧ ∀ r c, Coord r c ≠ Coord 0 0 → Coord r c ≠ Coord 0 1 → MPU.peek s' r c = 0).
  { intros g -> -> ->.
    rewrite bind_run, Hreset, bind_run, setState_returns, bind_run, setState_returns.
    rewrite !truthyZ_bit_val.
    eexists. split.
    { rewrite bind_run. cbn [App.run_from]. rewrite bind_run.
      unfold App.step at 1. rewrite bind_run.
      change (App.execute (clock 2%nat) (Ins "ISO" None)) with MPU.ISO.
      unfold MPU.ISO at 1, mret at 1, M_ret at 1.
      rewrite bind_run. unfold MPU.snapshot at 1.
      rewrite bind_run, getState_returns.
      unfold mret at 1, M_ret at 1. rewrite bind_run.
      unfold App.step at 1. rewrite bind_run.
      reflexivity. }
    assert (H00 : is_Some (s0 !! MPU.makeId 0 0))
      by (apply Hdom; exists 0%nat, 0%nat; split_and!; [lia|lia|done]).
    assert (H01 : is_Some (s0 !! MPU.makeId 0 1))
      by (apply Hdom; exists 0%nat, 1%nat; split_and!; [lia|lia|done]).
    assert (H03 : is_Some (s0 !! MPU.makeId 0 3))
      by (apply Hdom; exists 0%nat, 3%nat; split_and!; [lia|lia|done]).
    split_and!.
    - rewrite peek_ensured, peek_insert_other, peek_ensured, peek_insert_same by done.
      done.
    - by rewrite peek_ensured, peek_insert_same.
    - rewrite (ensured_id 0 0 s0) by done.
      rewrite (ensured_id 0 1)
        by (rewrite lookup_insert_ne; [done|by apply makeId_ne]).
      rewrite (ensured_id 0 3)
        by (rewrite !lookup_insert_ne; [done|by apply makeId_ne..]).
      rewrite map_size_insert_Some
        by (rewrite lookup_insert_ne; [done|by apply makeId_ne]).
      by rewrite map_size_insert_Some.
    - by apply Hframe. }
  unfold App.runGate.
  destruct Hname as [-> | ->].
  - change (GATES "XOR") with (Own Catalog.XOR). cbn [input_A input_B].
    by apply Hrun.
  - change (GATES "XNOR") with (Own Catalog.XNOR). cbn [input_A input_B].
    by apply Hrun.
Qed.

Lemma runGate_XOR_XNOR_throw_witness :
  ("XOR" = "XOR" ∨ "XOR" = "XNOR")
  ∧ ∃ s',
      App.runGate "XOR" (Inputs 1 0) (λ _, 0) ∅ = Throws s'
      ∧ MPU.peek s' 0 0 = (if truthyZ 1 then 1 else 0)
      ∧ MPU.peek s' 0 1 = (if truthyZ 0 then 1 else 0)
      ∧ size s' = 8%nat
      ∧ ∀ r c, Coord r c ≠ Coord 0 0 → Coord r c ≠ Coord 0 1 → MPU.peek s' r c = 0.
Proof.
  split; [left; reflexivity|].
  apply (runGate_XOR_XNOR_throw "XOR" ∅ (λ _, 0) 1 0). left; reflexivity.
Defined.

(** ** The catalog's [compute] functions *)

Lemma setState_then (t : Z) (r c : nat) (val : jsval) {A} (k : M A) (s : store) :
  (_ ← MPU.setState t r c val; k) s
  = k (<[MPU.makeId r c :=
           {| state := if truthy val then 1 else 0;
              history := history (view s (MPU.makeId r c))
                         ++ [HistEntry "SET" t (if truthy val then 1 else 0) None] |}]>
         (ensured r c s)).
Proof. by rewrite bind_run, setState_returns. Qed.

Lemma getState_after_write (r c : nat) (m : memristor) (s : store) :
  MPU.getState r c (<[MPU.makeId r c := m]> s)
  = Returns (state m) (<[MPU.makeId r c := m]> s).
Proof. by rewrite getState_returns, ensured_insert, peek_insert_same. Qed.

(** X11. For AND, OR, NAND, XOR and XNOR the catalog's [compute] returns,
    from any grid and for any integer inputs, the value the reference
    truth-function gives for the gate's name. *)
Theorem compute_agrees_with_truth (g : gate) (s : store) (clock : nat → Z) (a b : Z) :
  g ∈ [Catalog.AND; Catalog.OR; Catalog.NAND; Catalog.XOR; Catalog.XNOR] →
  ∃ v s',
    compute g clock (Inputs a b) s = Returns v s'
    ∧ computeTruth (name g) a b = TNum v
    ∧ (v = 0 ∨ v = 1).
Proof.
  rewrite !elem_of_cons, elem_of_nil.
  intros [-> | [-> | [-> | [-> | [-> | []]]]]]; cbn [compute name Catalog.AND Catalog.OR
    Catalog.NAND Catalog.XOR Catalog.XNOR input_A input_B];
    rewrite !setState_then, getState_after_write; cbn [state];
    rewrite !truthyZ_bit_val; eexists _, _; (split; [reflexivity|]).
  - split; [reflexivity|]. destruct (truthyZ (js_and a b)); auto.
  - split; [reflexivity|]. destruct (truthyZ (js_or a b)); auto.
  - split; [|destruct (truthyZ (js_and a b)); auto].
    change (computeTruth "NAND" a b)
      with (TNum (if truthyZ (js_and a b) then 0 else 1)).
    by destruct (truthyZ (js_and a b)).
  - split; [reflexivity|]. destruct (truthyZ (js_xor a b)); auto.
  - split; [|destruct (truthyZ (js_xor a b)); auto].
    change (computeTruth "XNOR" a b)
      with (TNum (if truthyZ (js_xor a b) then 0 else 1)).
    by destruct (truthyZ (js_xor a b)).
Qed.

Lemma compute_agrees_with_truth_witness :
  Catalog.XOR ∈ [Catalog.AND; Catalog.OR; Catalog.NAND; Catalog.XOR; Catalog.XNOR]
  ∧ ∃ v s',
      compute Catalog.XOR (λ _, 0) (Inputs 1 0) ∅ = Returns v s'
      ∧ computeTruth (name Catalog.XOR) 1 0 = TNum v
      ∧ (v = 0 ∨ v = 1).
Proof.
  assert (Hin : Catalog.XOR ∈ [Catalog.AND; Catalog.OR; Catalog.NAND; Catalog.XOR;
                               Catalog.XNOR]).
  { rewrite !elem_of_cons. right; right; right; left. reflexivity. }
  split; [exact Hin|].
  exact (compute_agrees_with_truth Catalog.XOR ∅ (λ _, 0) 1 0 Hin).
Defined.

(** X12. NOT's [compute] does not depend on its input: it seeds cell (0,0)
    and returns the complement of the state cell (0,2) had, so on a
    freshly reset 1 × 3 grid it returns 1 for every A, also for A = 1,
    where the reference truth-function gives 0. *)
Theorem compute_NOT_ignores_input (s : store) (clock : nat → Z) (a b : Z) :
  (∃ s', compute Catalog.NOT clock (Inputs a b) s
         = Returns (if truthyZ (MPU.peek s 0 2) then 0 else 1) s'
         ∧ MPU.peek s' 0 0 = (if truthyZ a then 1 else 0))
  ∧ (∃ s0 s', MPU.resetGrid 1 3 s = Returns () s0
              ∧ compute Catalog.NOT clock (Inputs a b) s0 = Returns 1 s')
  ∧ computeTruth "NOT" 1 b = TNum 0.
Proof.
  assert (Hrun : ∀ s0, ∃ s',
    compute Catalog.NOT clock (Inputs a b) s0
    = Returns (if truthyZ (MPU.peek s0 0 2) then 0 else 1) s'
    ∧ MPU.peek s' 0 0 = (if truthyZ a then 1 else 0)).
  { intros s0. cbn [compute Catalog.NOT input_A].
    rewrite setState_then, bind_run, MNOT_returns.
    cbn [coord_r coord_c]. rewrite getState_after_write. cbn [state].
    rewrite peek_insert_other, peek_ensured by done.
    eexists. split; [reflexivity|].
    rewrite peek_insert_other, peek_ensured, peek_insert_same by done.
    cbn [state]. by rewrite truthyZ_bit_val. }
  split_and!; [apply Hrun| |done].
  destruct (resetGrid_returns 1 3 s) as (s0 & Hreset & Hfresh & Hin).
  destruct (Hrun s0) as (s' & Hc & _).
  exists s0, s'. split; [done|]. rewrite Hc.
  unfold MPU.peek. by rewrite (Hin 0%nat 2%nat) by lia.
Qed.

(** * Further properties of the crossbar read model *)

Section SignFacts.
#[local] Open Scope float_scope.

Lemma round_aux_not_negative (m e : Z) (l : location) :
  not_negative (binary_round_aux prec emax false m e l).
Proof.
  unfold binary_round_aux.
  destruct (shr_fexp prec emax m e l) as [mrs e'].
  destruct (shr_fexp prec emax _ e' loc_Exact) as [mrs' e''].
  destruct (shr_m mrs'); simpl; [done| |done].
  by destruct (Z.leb _ _).
Qed.

Lemma SFdiv_not_negative (x y : spec_float) :
  not_negative x → strictly_positive y → not_negative (SF64div x y).
Proof.
  destruct x as [sx|sx| |sx mx ex], y as [sy|[|]| |[|] my ey];
    try done; intros Hx _; simpl in Hx; subst; try done.
  unfold SF64div, SFdiv.
  destruct (SFdiv_core_binary prec emax (Z.pos mx) ex (Z.pos my) ey) as [[mz ez] lz].
  apply round_aux_not_negative.
Qed.

Lemma SFmul_not_negative (x y : spec_float) :
  not_negative x → strictly_positive y → not_negative (SF64mul x y).
Proof.
  destruct x as [sx|sx| |sx mx ex], y as [sy|[|]| |[|] my ey];
    try done; intros Hx _; simpl in Hx; subst; try done.
  apply round_aux_not_negative.
Qed.

Lemma not_negative_not_below_zero (x : spec_float) (s : bool) :
  not_negative x → SFltb x (S754_zero s) = false.
Proof.
  unfold SFltb. by destruct x as [sx|sx| |sx mx ex]; simpl; try done; intros ->.
Qed.

Lemma not_below_zero_not_negative (v : float) :
  (v <? 0) = false → not_negative (Prim2SF v).
Proof.
  rewrite FloatAxioms.ltb_spec. change (Prim2SF 0) with (S754_zero false).
  unfold SFltb. by destruct (Prim2SF v) as [sx|[|]| |[|] mx ex].
Qed.

Lemma above_zero_strictly_positive (R : float) :
  (0 <? R) = true → strictly_positive (Prim2SF R).
Proof.
  rewrite FloatAxioms.ltb_spec. change (Prim2SF 0) with (S754_zero false).
  unfold SFltb. by destruct (Prim2SF R) as [sx|[|]| |[|] mx ex].
Qed.

(** The read threshold of a drive that is not negative is not below a
    zero total. *)
Lemma threshold_not_below_zero (v R z : float) :
  (v <? 0) = false → (0 <? R) = true → (z =? 0) = true →
  (0.35 * (v / R) <? z) = false.
Proof.
  intros Hv HR Hz. rewrite (float_mul_comm 0.35).
  rewrite FloatAxioms.ltb_spec, mul_spec, div_spec.
  assert (Hzero : ∃ s, Prim2SF z = S754_zero s).
  { revert Hz. rewrite FloatAxioms.eqb_spec. change (Prim2SF 0) with (S754_zero false).
    unfold SFeqb. destruct (Prim2SF z) as [sx|[|]| |[|] mx ex]; try done.
    by eexists. }
  destruct Hzero as [s ->].
  apply not_negative_not_below_zero, SFmul_not_negative.
  - apply SFdiv_not_negative;
      [by apply not_below_zero_not_negative|by apply above_zero_strictly_positive].
  - by vm_compute.
Qed.

(** Adding a zero of either sign to the zero a total starts from. *)
Lemma float_zero_add_zero (x : float) : (x =? 0) = true → 0 + x = 0.
Proof.
  rewrite FloatAxioms.eqb_spec. change (Prim2SF 0) with (S754_zero false).
  intros Hx. apply Prim2SF_inj. rewrite add_spec.
  change (Prim2SF 0) with (S754_zero false).
  unfold SFeqb in Hx. by destruct (Prim2SF x) as [[|]|[|]| |[|] mx ex].
Qed.

Lemma float_zero_eqb : (0 =? 0) = true.
Proof. reflexivity. Qed.

End SignFacts.

Section QuietCrossbar.
Import Crossbar.
#[local] Open Scope float_scope.

Lemma column_sum_zero (cur : list (list float)) (c : nat) :
  (∀ row x, row ∈ cur → row !! c = Some x → (x =? 0) = true) →
  column_sum cur c = 0.
Proof.
  unfold column_sum. induction cur as [|row cur IH]; intros Hcur; simpl; [done|].
  assert (Hrow : 0 + default 0 (row !! c) = 0).
  { apply float_zero_add_zero. destruct (row !! c) as [x|] eqn:Hx; simpl.
    - eapply Hcur; [apply list_elem_of_here|done].
    - reflexivity. }
  rewrite Hrow. apply IH. intros row' x Hin. apply Hcur. by apply list_elem_of_further.
Qed.

Lemma get2_elem {A} (m : list (list A)) (row : list A) (c : nat) (x : A) :
  row ∈ m → row !! c = Some x → ∃ r, get2 m r c = Some x.
Proof.
  intros [r Hr]%list_elem_of_lookup Hx. exists r. unfold get2. by rewrite Hr.
Qed.

Lemma column_totals_zero (cur : list (list float)) :
  (∀ r c x, get2 cur r c = Some x → (x =? 0) = true) →
  Spec.column_totals cur = replicate 4 0.
Proof.
  intros Hcur. unfold Spec.column_totals. simpl.
  rewrite !column_sum_zero; [done|..];
    intros row x Hin Hx; destruct (get2_elem _ _ _ _ Hin Hx) as [r Hr]; eauto.
Qed.

Lemma undriven_cell_current (cl : cell) :
  (0 - 0) * spec_conductance App.RON App.ROFF cl = 0.
Proof.
  unfold spec_conductance.
  by destruct (selector cl), (String.eqb (state cl) "RON").
Qed.

Lemma get2_cell_currents (RON ROFF : float) (m : list (list cell)) (driven : list bool)
    (vDrive : float) (r c : nat) :
  get2 (Spec.cell_currents RON ROFF m driven vDrive) r c
  = (λ cl, (Spec.V_row driven vDrive r - 0) * spec_conductance RON ROFF cl)
      <$> get2 m r c.
Proof.
  unfold Spec.cell_currents, Spec.conductances.
  rewrite get2_imap, get2_fmap. by destruct (get2 m r c).
Qed.

(** X13. In the app, when neither input is set no row is driven: on every
    4 × 4 crossbar, whatever its cells and whatever the drive voltage, all
    sixteen currents and all four column totals are exactly zero, and the
    readout is 0 unless the drive voltage is negative. *)
Theorem undriven_crossbar_is_quiet (i : inputs) (crossbar : list (list cell))
    (vDrive : float) :
  well_formed crossbar →
  truthyZ (input_A i) = false → truthyZ (input_B i) = false →
  ∃ res,
    App.recompute i crossbar vDrive = Some res
    ∧ App.newDriven res = [false; false; false; false]
    ∧ (∀ r c x, get2 (App.currents res) r c = Some x → x = 0)
    ∧ App.blTotals res = [0; 0; 0; 0]
    ∧ ((vDrive <? 0) = false → App.out res = 0%Z).
Proof.
  intros Hwf HA HB. unfold App.recompute.
  eexists. split; [by apply recompute_run|].
  cbn [App.newDriven App.currents App.blTotals App.out].
  assert (Hdrive : Spec.drive i = [false; false; false; false])
    by (unfold Spec.drive; by rewrite HA, HB).
  rewrite Hdrive.
  assert (Hcur : ∀ r c x,
    get2 (Spec.cell_currents App.RON App.ROFF crossbar [false; false; false; false] vDrive)
      r c = Some x → x = 0).
  { intros r c x. rewrite get2_cell_currents.
    destruct (get2 crossbar r c) as [cl|]; [|done]. simpl. intros [= <-].
    assert (HV : Spec.V_row [false; false; false; false] vDrive r = 0).
    { unfold Spec.V_row. by destruct r as [|[|[|[|r]]]]. }
    rewrite HV. apply undriven_cell_current. }
  assert (Htot : Spec.column_totals
    (Spec.cell_currents App.RON App.ROFF crossbar [false; false; false; false] vDrive)
    = [0; 0; 0; 0]).
  { apply column_totals_zero. intros r c x Hx. by rewrite (Hcur _ _ _ Hx). }
  split; [done|]. split; [done|]. split; [done|].
  intros Hv. rewrite Htot. unfold Spec.readout. simpl.
  by rewrite threshold_not_below_zero.
Qed.

Lemma undriven_crossbar_is_quiet_witness :
  well_formed (updateCrossbar "NOT" 0 0 (Some 1%Z))
  ∧ truthyZ (input_A (Inputs 0 0)) = false ∧ truthyZ (input_B (Inputs 0 0)) = false
  ∧ ∃ res,
      App.recompute (Inputs 0 0) (updateCrossbar "NOT" 0 0 (Some 1%Z)) 1 = Some res
      ∧ App.newDriven res = [false; false; false; false]
      ∧ (∀ r c x, get2 (App.currents res) r c = Some x → x = 0)
      ∧ App.blTotals res = [0; 0; 0; 0]
      ∧ ((1 <? 0) = false → App.out res = 0%Z).
Proof.
  split; [apply updateCrossbar_well_formed|]. split; [reflexivity|].
  split; [reflexivity|].
  apply (undriven_crossbar_is_quiet (Inputs 0 0) (updateCrossbar "NOT" 0 0 (Some 1%Z)) 1);
    [apply updateCrossbar_well_formed|reflexivity|reflexivity].
Defined.

(** X14. A fully deselected 4 × 4 crossbar conducts nothing: for every
    input pair and every finite drive voltage each current is a zero,
    every column total is exactly zero, and the readout is 0 unless the
    drive voltage is negative. *)
Theorem deselected_crossbar_is_quiet (RON ROFF : float) (i : inputs)
    (crossbar : list (list cell)) (vDrive : float) :
  well_formed crossbar →
  (∀ r c cl, get2 crossbar r c = Some cl → selector cl = false) →
  PrimFloat.is_finite vDrive = true → (0 <? RON) = true →
  ∃ res,
    App.recompute_with RON ROFF i crossbar vDrive = Some res
    ∧ (∀ r c x, get2 (App.G res) r c = Some x → x = 0)
    ∧ (∀ r c x, get2 (App.currents res) r c = Some x → (x =? 0) = true)
    ∧ App.blTotals res = [0; 0; 0; 0]
    ∧ ((vDrive <? 0) = false → App.out res = 0%Z).
Proof.
  intros Hwf Hsel Hfin HR.
  eexists. split; [by apply recompute_run|].
  cbn [App.G App.currents App.blTotals App.out].
  assert (Hcur : ∀ r c x,
    get2 (Spec.cell_currents RON ROFF crossbar (Spec.drive i) vDrive) r c = Some x →
    (x =? 0) = true).
  { intros r c x Hx.
    destruct (get2 crossbar r c) as [cl|] eqn:Hcl.
    - destruct (disabled_cell_current RON ROFF crossbar (Spec.drive i) vDrive r c cl)
        as (y & Hy & Hzero); [done|by eapply Hsel|done|]. congruence.
    - by rewrite get2_cell_currents, Hcl in Hx. }
  assert (Htot : Spec.column_totals
    (Spec.cell_currents RON ROFF crossbar (Spec.drive i) vDrive) = [0; 0; 0; 0])
    by by apply column_totals_zero.
  split_and!.
  - intros r c x. unfold Spec.conductances. rewrite get2_fmap.
    destruct (get2 crossbar r c) as [cl|] eqn:Hcl; [|done]. simpl. intros [= <-].
    unfold spec_conductance. by rewrite (Hsel _ _ _ Hcl).
  - done.
  - done.
  - intros Hv. rewrite Htot. unfold Spec.readout. simpl.
    by rewrite threshold_not_below_zero.
Qed.

Lemma deselected_crossbar_is_quiet_witness :
  well_formed (replicate 4 (replicate 4 (Cell "RON" false)))
  ∧ (∀ r c cl, get2 (replicate 4 (replicate 4 (Cell "RON" false))) r c = Some cl →
               selector cl = false)
  ∧ PrimFloat.is_finite 1 = true ∧ (0 <? App.RON) = true
  ∧ ∃ res,
      App.recompute_with App.RON App.ROFF (Inputs 1 1)
        (replicate 4 (replicate 4 (Cell "RON" false))) 1 = Some res
      ∧ (∀ r c x, get2 (App.G res) r c = Some x → x = 0)
      ∧ (∀ r c x, get2 (App.currents res) r c = Some x → (x =? 0) = true)
      ∧ App.blTotals res = [0; 0; 0; 0]
      ∧ ((1 <? 0) = false → App.out res = 0%Z).
Proof.
  assert (Hwf : well_formed (replicate 4 (replicate 4 (Cell "RON" false))))
    by (split; [reflexivity|repeat constructor]).
  assert (Hsel : ∀ r c cl,
    get2 (replicate 4 (replicate 4 (Cell "RON" false))) r c = Some cl →
    selector cl = false).
  { intros r c cl. unfold get2.
    destruct r as [|[|[|[|r]]]]; simpl; try done;
      destruct c as [|[|[|[|c]]]]; simpl; try done; by intros [= <-]. }
  split; [exact Hwf|]. split; [exact Hsel|]. split; [reflexivity|].
  split; [reflexivity|].
  exact (deselected_crossbar_is_quiet App.RON App.ROFF (Inputs 1 1)
           (replicate 4 (replicate 4 (Cell "RON" false))) 1 Hwf Hsel eq_refl eq_refl).
Defined.

(** X15. After an input change the app installs [updateCrossbar]'s matrix
    for the reference output and reads it back at the default drive: for
    inputs in {0,1} that readout is 1 when A is 1, else 1 only when B is 1
    and the reference output is 1, and else 0.  So for the gate OR it is
    the reference output on all four input pairs, while for AND at
    (A, B) = (1, 0) it is 1 where the reference output is 0. *)
Theorem readout_after_input_change (gate_name : string) (a b : Z) :
  a = 0%Z ∨ a = 1%Z → b = 0%Z ∨ b = 1%Z →
  ∃ res,
    App.recompute (Inputs a b) (App.autoRun gate_name (Inputs a b)).2
      App.DEFAULT_VDRIVE = Some res
    ∧ App.out res
      = (if (a =? 1)%Z then 1
         else if (b =? 1)%Z && bool_decide ((App.autoRun gate_name (Inputs a b)).1 = TNum 1)
              then 1 else 0)%Z
    ∧ (gate_name = "OR" → (App.autoRun gate_name (Inputs a b)).1 = TNum (App.out res))
    ∧ (gate_name = "AND" → a = 1%Z → b = 0%Z →
       (App.autoRun gate_name (Inputs a b)).1 = TNum 0 ∧ App.out res = 1%Z).
Proof.
  intros Ha Hb. unfold App.autoRun. cbn [fst snd input_A input_B].
  assert (Hout : ∀ o : option Z, ∃ res,
    App.recompute (Inputs a b) (updateCrossbar gate_name a b o) App.DEFAULT_VDRIVE
      = Some res
    ∧ App.out res
      = (if (a =? 1)%Z then 1
         else if (b =? 1)%Z && bool_decide (o = Some 1%Z) then 1 else 0)%Z).
  { intros o. unfold updateCrossbar.
    destruct (bool_decide (o = Some 1%Z));
      destruct Ha as [-> | ->], Hb as [-> | ->]; eexists; by vm_compute. }
  destruct (Hout (match computeTruth gate_name a b with
                  | TNum z => Some z | TDash => None end)) as (res & Hres & Ho).
  exists res. split; [done|].
  assert (Hdec : bool_decide (match computeTruth gate_name a b with
                              | TNum z => Some z | TDash => None end = Some 1%Z)
                 = bool_decide (computeTruth gate_name a b = TNum 1)).
  { apply bool_decide_ext. destruct (computeTruth gate_name a b); split; congruence. }
  rewrite Hdec in Ho. split; [done|]. split.
  - intros ->. rewrite Ho. by destruct Ha as [-> | ->], Hb as [-> | ->].
  - intros -> -> ->. by rewrite Ho.
Qed.

Lemma readout_after_input_change_witness :
  (1 = 0 ∨ 1 = 1)%Z ∧ (0 = 0 ∨ 0 = 1)%Z
  ∧ ∃ res,
      App.recompute (Inputs 1 0) (App.autoRun "AND" (Inputs 1 0)).2
        App.DEFAULT_VDRIVE = Some res
      ∧ App.out res
        = (if (1 =? 1)%Z then 1
           else if (0 =? 1)%Z && bool_decide ((App.autoRun "AND" (Inputs 1 0)).1 = TNum 1)
                then 1 else 0)%Z
      ∧ ("AND" = "OR" → (App.autoRun "AND" (Inputs 1 0)).1 = TNum (App.out res))
      ∧ ("AND" = "AND" → 1%Z = 1%Z → 0%Z = 0%Z →
         (App.autoRun "AND" (Inputs 1 0)).1 = TNum 0 ∧ App.out res = 1%Z).
Proof.
  split; [right; reflexivity|]. split; [left; reflexivity|].
  apply (readout_after_input_change "AND" 1 0); [right|left]; reflexivity.
Defined.

End QuietCrossbar.

(** * The memo of [CrossbarAdvanced] at any size *)

Section GeneralSim.
Import Crossbar.
#[local] Open Scope float_scope.

Lemma well_formed_shaped {A} (m : list (list A)) : well_formed m ↔ shaped 4 4 m.
Proof. done. Qed.

Lemma shaped_row {A} (rows cols : nat) (m : list (list A)) (r : nat) (row : list A) :
  shaped rows cols m → m !! r = Some row → length row = cols.
Proof. intros [_ Hrows] Hr. by apply (Forall_lookup_1 _ _ _ _ Hrows Hr). Qed.

Lemma shaped_get2 {A} (rows cols : nat) (m : list (list A)) (r c : nat) :
  shaped rows cols m → (r < rows)%nat → (c < cols)%nat → is_Some (get2 m r c).
Proof.
  intros Hm Hr Hc. destruct (lookup_lt_is_Some_2 m r) as [row Hrow].
  { destruct Hm as [-> _]. done. }
  unfold get2. rewrite Hrow. simpl. apply lookup_lt_is_Some_2.
  by rewrite (shaped_row _ _ _ _ _ Hm Hrow).
Qed.

Lemma get2_lt {A} (rows cols : nat) (m : list (list A)) (r c : nat) (x : A) :
  shaped rows cols m → get2 m r c = Some x → (r < rows)%nat ∧ (c < cols)%nat.
Proof.
  intros Hm. unfold get2. destruct (m !! r) as [row|] eqn:Hrow; simpl; [|done].
  intros Hx. split.
  - destruct Hm as [<- _]. by eapply lookup_lt_Some.
  - rewrite <-(shaped_row _ _ _ _ _ Hm Hrow). by eapply lookup_lt_Some.
Qed.

Lemma get2_set2_ne {A} (r c r' c' : nat) (x : A) (m : list (list A)) :
  r ≠ r' ∨ c ≠ c' → get2 (set2 r c x m) r' c' = get2 m r' c'.
Proof.
  intros Hne. unfold get2, set2. rewrite list_lookup_alter.
  case_decide as Hr; [|done]. subst r'.
  destruct (m !! r) as [row|]; simpl; [|done].
  apply list_lookup_insert_ne. by destruct Hne.
Qed.

Lemma set2_shaped {A} (rows cols r c : nat) (x : A) (m : list (list A)) :
  shaped rows cols m → shaped rows cols (set2 r c x m).
Proof.
  intros [Hlen Hrows]. unfold set2. split.
  - by rewrite length_alter.
  - apply Forall_alter; [done|]. intros row _ Hrow. by rewrite length_insert.
Qed.

Lemma shaped_ext {A} (rows cols : nat) (m1 m2 : list (list A)) :
  shaped rows cols m1 → shaped rows cols m2 →
  (∀ r c, (r < rows)%nat → (c < cols)%nat → get2 m1 r c = get2 m2 r c) →
  m1 = m2.
Proof.
  intros H1 H2 Hget.
  apply (list_eq_same_length _ _ rows); [by destruct H2|by destruct H1|].
  intros r row1 row2 Hr Hrow1 Hrow2.
  apply (list_eq_same_length _ _ cols);
    [by apply (shaped_row rows cols m2 r)|by apply (shaped_row rows cols m1 r)|].
  intros c x y Hc Hx Hy.
  specialize (Hget r c Hr Hc). unfold get2 in Hget.
  rewrite Hrow1, Hrow2 in Hget. simpl in Hget. congruence.
Qed.

Lemma zeros_shaped (rows cols : nat) : shaped rows cols (zeros rows cols).
Proof.
  unfold zeros. split; [by rewrite length_replicate|].
  apply Forall_replicate. by rewrite length_replicate.
Qed.

Lemma conductances_shaped (RON ROFF : float) (rows cols : nat) (m : list (list cell)) :
  shaped rows cols m → shaped rows cols (Spec.conductances RON ROFF m).
Proof.
  intros [Hlen Hrows]. unfold Spec.conductances. split; [by rewrite length_fmap|].
  apply Forall_fmap. eapply Forall_impl; [done|]. intros row Hrow. simpl.
  by rewrite length_fmap.
Qed.

Lemma cell_currents_shaped (RON ROFF : float) (rows cols : nat) (m : list (list cell))
    (driven : list bool) (vDrive : float) :
  shaped rows cols m → shaped rows cols (Spec.cell_currents RON ROFF m driven vDrive).
Proof.
  intros Hm. destruct (conductances_shaped RON ROFF _ _ _ Hm) as [Hlen Hrows].
  unfold Spec.cell_currents. split; [by rewrite length_imap|].
  apply Forall_lookup. intros r row. rewrite list_lookup_imap.
  destruct (Spec.conductances RON ROFF m !! r) as [grow|] eqn:Hg; [|done].
  simpl. intros [= <-]. rewrite length_fmap.
  by apply (Forall_lookup_1 _ _ _ _ Hrows Hg).
Qed.

(** Filling row [r] of a matrix, column by column. *)
Lemma fill_row {A} (f : nat → option A) (rows cols r : nat) (l : list nat)
    (G : list (list A)) :
  shaped rows cols G → (r < rows)%nat →
  (∀ c, c ∈ l → (c < cols)%nat ∧ is_Some (f c)) →
  ∃ G', loop (λ c G, x ← f c; Some (set2 r c x G)) l G = Some G'
        ∧ shaped rows cols G'
        ∧ ∀ r' c', get2 G' r' c'
                   = if decide (r' = r ∧ c' ∈ l) then f c' else get2 G r' c'.
Proof.
  intros HG Hr. revert G HG. induction l as [|c l IH]; intros G HG Hl.
  - exists G. split_and!; [done|done|]. intros r' c'.
    rewrite decide_False; [done|]. intros [_ ?%elem_of_nil]. done.
  - destruct (Hl c) as [Hc [x Hx]]; [apply list_elem_of_here|].
    simpl. rewrite Hx. simpl.
    destruct (IH (set2 r c x G)) as (G' & Hrun & HG' & Hget).
    { by apply set2_shaped. }
    { intros c0 Hc0. apply Hl. by apply list_elem_of_further. }
    exists G'. split_and!; [done|done|]. intros r' c'. rewrite Hget.
    destruct (decide (r' = r ∧ c' ∈ l)) as [[-> Hin]|Hnin].
    + rewrite decide_True; [done|]. split; [done|by apply list_elem_of_further].
    + destruct (decide (r' = r ∧ c' = c)) as [[-> ->]|Hne].
      * rewrite decide_True by (split; [done|apply list_elem_of_here]).
        destruct (shaped_get2 _ _ G r c HG Hr Hc) as [y Hy].
        by rewrite (get2_set2 _ _ _ _ _ Hy).
      * rewrite decide_False.
        2:{ intros [-> [->|Hin]%elem_of_cons]; [by apply Hne|by apply Hnin]. }
        apply get2_set2_ne.
        destruct (decide (r = r')) as [<-|]; [|by left].
        right. intros <-. by apply Hne.
Qed.

(** Filling a matrix row by row. *)
Lemma fill_rows {A} (f : nat → nat → option A) (rows cols : nat) (rs : list nat)
    (G : list (list A)) :
  shaped rows cols G →
  (∀ r, r ∈ rs → (r < rows)%nat ∧ ∀ c, (c < cols)%nat → is_Some (f r c)) →
  ∃ G', loop (λ r G, loop (λ c G, x ← f r c; Some (set2 r c x G)) (seq 0 cols) G) rs G
        = Some G'
        ∧ shaped rows cols G'
        ∧ ∀ r' c', get2 G' r' c'
                   = if decide (r' ∈ rs ∧ (c' < cols)%nat) then f r' c' else get2 G r' c'.
Proof.
  revert G. induction rs as [|r rs IH]; intros G HG Hrs.
  - exists G. split_and!; [done|done|]. intros r' c'.
    rewrite decide_False; [done|]. intros [?%elem_of_nil _]. done.
  - destruct (Hrs r) as [Hr Hf]; [apply list_elem_of_here|].
    destruct (fill_row (f r) rows cols r (seq 0 cols) G HG Hr) as (G1 & Hrun1 & HG1 & Hget1).
    { intros c Hc%elem_of_seq. split; [lia|apply Hf; lia]. }
    destruct (IH G1 HG1) as (G' & Hrun & HG' & Hget).
    { intros r0 Hr0. apply Hrs. by apply list_elem_of_further. }
    exists G'. simpl. rewrite Hrun1. simpl. split_and!; [done|done|].
    intros r' c'. rewrite Hget, Hget1.
    destruct (decide (r' ∈ rs ∧ (c' < cols)%nat)) as [[Hin Hc']|Hnin].
    + rewrite decide_True; [done|]. split; [by apply list_elem_of_further|done].
    + destruct (decide (r' = r ∧ c' ∈ seq 0 cols)) as [[-> Hc']|Hne].
      * apply elem_of_seq in Hc'.
        rewrite decide_True; [done|]. split; [apply list_elem_of_here|lia].
      * rewrite decide_False; [done|].
        intros [[->|Hin]%elem_of_cons Hc'].
        -- apply Hne. split; [done|]. apply elem_of_seq. lia.
        -- by apply Hnin.
Qed.

End GeneralSim.

Section GeneralSimRun.
Import Crossbar.
#[local] Open Scope float_scope.

Lemma advanced_build_G_run (RON ROFF : float) (rows cols : nat) (m : list (list cell)) :
  shaped rows cols m →
  CrossbarAdvanced.build_G RON ROFF rows cols m = Some (Spec.conductances RON ROFF m).
Proof.
  intros Hm. unfold CrossbarAdvanced.build_G.
  trans (loop (λ r G,
                 loop (λ c G, x ← spec_conductance RON ROFF <$> get2 m r c;
                              Some (set2 r c x G)) (seq 0 cols) G)
           (seq 0 rows) (zeros rows cols)).
  { apply loop_ext. intros r G. apply loop_ext. intros c G'.
    etrans; [apply (build_G_body RON ROFF m r c G')|].
    by destruct (get2 m r c). }
  destruct (fill_rows (λ r c, spec_conductance RON ROFF <$> get2 m r c)
              rows cols (seq 0 rows) (zeros rows cols)) as (G' & Hrun & HG' & Hget).
  { apply zeros_shaped. }
  { intros r Hr%elem_of_seq. split; [lia|]. intros c Hc.
    destruct (shaped_get2 rows cols m r c Hm) as [cl Hcl]; [lia|done|].
    rewrite Hcl. by eexists. }
  rewrite Hrun. f_equal.
  apply (shaped_ext rows cols); [done|by apply conductances_shaped|].
  intros r c Hr Hc. rewrite Hget, decide_True by (split; [apply elem_of_seq; lia|done]).
  unfold Spec.conductances. by rewrite get2_fmap.
Qed.

(** One row of the currents loop: the row of [I] is filled and every
    column total grows by the current of that row. *)
Lemma currents_row (val : nat → float) (G : list (list float)) (rows cols r : nat)
    (Vwl : float) (l : list nat) (I : list (list float)) (BL : list float) :
  shaped rows cols I → length BL = cols → (r < rows)%nat → NoDup l →
  (∀ c, c ∈ l → (c < cols)%nat ∧ ∃ g, get2 G r c = Some g ∧ val c = (Vwl - 0) * g) →
  ∃ I' BL',
    loop (λ c '(I, BL_total),
            g ← get2 G r c;
            let Irc := (Vwl - 0) * g in
            total ← BL_total !! c;
            Some (set2 r c Irc I, <[c := total + Irc]> BL_total)) l (I, BL)
    = Some (I', BL')
    ∧ shaped rows cols I' ∧ length BL' = cols
    ∧ (∀ r' c', get2 I' r' c'
                = if decide (r' = r ∧ c' ∈ l) then Some (val c') else get2 I r' c')
    ∧ (∀ c', BL' !! c'
             = if decide (c' ∈ l) then (λ t, t + val c') <$> BL !! c' else BL !! c').
Proof.
  intros HI HBL Hr Hnd. revert I BL HI HBL.
  induction Hnd as [|c l Hnin Hnd IH]; intros I BL HI HBL Hl.
  - exists I, BL. split_and!; [done|done|done|..].
    + intros r' c'. rewrite decide_False; [done|]. by intros [_ ?%elem_of_nil].
    + intros c'. rewrite decide_False; [done|]. by intros ?%elem_of_nil.
  - destruct (Hl c) as (Hc & g & Hg & Hval); [apply list_elem_of_here|].
    destruct (lookup_lt_is_Some_2 BL c) as [t Ht]; [lia|].
    simpl. rewrite Hg. simpl. rewrite Ht. simpl. rewrite <-Hval.
    destruct (IH (set2 r c (val c) I) (<[c := t + val c]> BL))
      as (I' & BL' & Hrun & HI' & HBL' & HgetI & HgetBL).
    { by apply set2_shaped. }
    { by rewrite length_insert. }
    { intros c0 Hc0. apply Hl. by apply list_elem_of_further. }
    exists I', BL'. split_and!; [done|done|done|..].
    + intros r' c'. rewrite HgetI.
      destruct (decide (r' = r ∧ c' ∈ l)) as [[-> Hin]|Hn].
      * rewrite decide_True; [done|]. split; [done|by apply list_elem_of_further].
      * destruct (decide (r' = r ∧ c' = c)) as [[-> ->]|Hne].
        -- rewrite decide_True by (split; [done|apply list_elem_of_here]).
           destruct (shaped_get2 _ _ I r c HI Hr Hc) as [y Hy].
           by rewrite (get2_set2 _ _ _ _ _ Hy).
        -- rewrite decide_False.
           2:{ intros [-> [->|Hin]%elem_of_cons]; [by apply Hne|by apply Hn]. }
           apply get2_set2_ne.
           destruct (decide (r = r')) as [<-|]; [|by left].
           right. intros <-. by apply Hne.
    + intros c'. rewrite HgetBL.
      destruct (decide (c' = c)) as [->|Hne].
      * rewrite decide_False by done.
        rewrite decide_True by apply list_elem_of_here.
        rewrite list_lookup_insert_eq by lia. by rewrite Ht.
      * rewrite list_lookup_insert_ne by done.
        destruct (decide (c' ∈ l)) as [Hin|Hn].
        -- rewrite decide_True; [done|by apply list_elem_of_further].
        -- rewrite decide_False; [done|].
           intros [->|Hin]%elem_of_cons; [by apply Hne|by apply Hn].
Qed.

Lemma currents_rows (body : nat → list (list float) * list float
                            → option (list (list float) * list float))
    (G : list (list float)) (driven : list bool) (vDrive : float)
    (rows cols : nat) (rs : list nat) (I : list (list float)) (BL : list float) :
  (∀ r acc,
     body r acc
     = loop (λ c '(I, BL_total),
               g ← get2 G r c;
               let Irc := ((if default false (driven !! r) then vDrive else 0) - 0) * g in
               total ← BL_total !! c;
               Some (set2 r c Irc I, <[c := total + Irc]> BL_total))
         (seq 0 cols) acc) →
  shaped rows cols G → shaped rows cols I → length BL = cols →
  (∀ r, r ∈ rs → (r < rows)%nat) →
  let val r c := (Spec.V_row driven vDrive r - 0) * default 0 (get2 G r c) in
  ∃ I' BL',
    loop body rs (I, BL) = Some (I', BL')
    ∧ shaped rows cols I' ∧ length BL' = cols
    ∧ (∀ r' c', get2 I' r' c'
                = if decide (r' ∈ rs ∧ (c' < cols)%nat) then Some (val r' c')
                  else get2 I r' c')
    ∧ (∀ c', (c' < cols)%nat →
             BL' !! c' = (λ b, foldl (λ acc r, acc + val r c') b rs) <$> BL !! c').
Proof.
  intros Hbody HG HI HBL Hrs val. revert I BL HI HBL.
  induction rs as [|r rs IH]; intros I BL HI HBL.
  - exists I, BL. split_and!; [done|done|done|..].
    + intros r' c'. rewrite decide_False; [done|]. by intros [?%elem_of_nil _].
    + intros c' Hc'. simpl. by destruct (BL !! c').
  - assert (Hr : (r < rows)%nat) by (apply Hrs, list_elem_of_here).
    destruct (currents_row (val r) G rows cols r
                (if default false (driven !! r) then vDrive else 0)
                (seq 0 cols) I BL HI HBL Hr (NoDup_seq 0 cols))
      as (I1 & BL1 & Hrun1 & HI1 & HBL1 & HgetI1 & HgetBL1).
    { intros c Hc%elem_of_seq. split; [lia|].
      destruct (shaped_get2 rows cols G r c HG) as [g Hg]; [done|lia|].
      exists g. split; [done|]. unfold val, Spec.V_row. by rewrite Hg. }
    destruct (IH ltac:(intros r0 Hr0; by apply Hrs, list_elem_of_further) I1 BL1 HI1 HBL1)
      as (I' & BL' & Hrun & HI' & HBL' & HgetI & HgetBL).
    exists I', BL'. simpl. rewrite Hbody, Hrun1. simpl. split_and!; [done|done|done|..].
    + intros r' c'. rewrite HgetI, HgetI1.
      destruct (decide (r' ∈ rs ∧ (c' < cols)%nat)) as [[Hin Hc']|Hnin].
      * rewrite decide_True; [done|]. split; [by apply list_elem_of_further|done].
      * destruct (decide (r' = r ∧ c' ∈ seq 0 cols)) as [[-> Hc']|Hne].
        -- apply elem_of_seq in Hc'.
           rewrite decide_True; [done|]. split; [apply list_elem_of_here|lia].
        -- rewrite decide_False; [done|].
           intros [[->|Hin]%elem_of_cons Hc'].
           ++ apply Hne. split; [done|]. apply elem_of_seq. lia.
           ++ by apply Hnin.
    + intros c' Hc'. rewrite (HgetBL c' Hc'), HgetBL1.
      rewrite decide_True by (apply elem_of_seq; lia).
      by destruct (BL !! c').
Qed.

Lemma foldl_lookup_seq {A B} (F : B → A → B) (H : B → nat → B) (l : list A) (b : B) :
  (∀ i x acc, l !! i = Some x → H acc i = F acc x) →
  foldl H b (seq 0 (length l)) = foldl F b l.
Proof.
  revert b. induction l as [|x l IH] using rev_ind; intros b Hl; [done|].
  rewrite length_app. simpl. rewrite Nat.add_1_r, seq_S, !foldl_app. simpl.
  rewrite IH.
  - apply Hl. by rewrite lookup_app_r, Nat.sub_diag.
  - intros i y acc Hy. apply Hl. by rewrite lookup_app_l by by eapply lookup_lt_Some.
Qed.

Lemma advanced_compute_currents_run (rows cols : nat) (driven : list bool)
    (G : list (list float)) (vDrive : float) :
  shaped rows cols G →
  let cur := imap (λ r row, (λ g, (Spec.V_row driven vDrive r - 0) * g) <$> row) G in
  CrossbarAdvanced.compute_currents rows cols driven G vDrive
  = Some (cur, Spec.column_totals_of cols cur).
Proof.
  intros HG cur. unfold CrossbarAdvanced.compute_currents.
  match goal with |- loop ?body _ _ = _ =>
    destruct (currents_rows body G driven vDrive rows cols (seq 0 rows)
                (zeros rows cols) (replicate cols 0) (λ _ _, eq_refl) HG
                (zeros_shaped rows cols))
      as (I' & BL' & Hrun & HI' & HBL' & HgetI & HgetBL)
  end.
  { by rewrite length_replicate. }
  { intros r Hr%elem_of_seq. lia. }
  rewrite Hrun.
  assert (Hcur : shaped rows cols cur).
  { destruct HG as [Hlen Hrows]. unfold cur. split; [by rewrite length_imap|].
    apply Forall_lookup. intros r row. rewrite list_lookup_imap.
    destruct (G !! r) as [grow|] eqn:Hg; [|done].
    simpl. intros [= <-]. rewrite length_fmap.
    by apply (Forall_lookup_1 _ _ _ _ Hrows Hg). }
  assert (HI : I' = cur).
  { apply (shaped_ext rows cols); [done|done|].
    intros r c Hr Hc. rewrite HgetI, decide_True by (split; [apply elem_of_seq; lia|done]).
    unfold cur. rewrite get2_imap.
    destruct (shaped_get2 rows cols G r c HG Hr Hc) as [g ->]. done. }
  subst I'. do 2 f_equal.
  apply (list_eq_same_length _ _ cols);
    [by unfold Spec.column_totals_of; rewrite length_fmap, length_seq|done|].
  intros c x y Hc Hx Hy.
  rewrite (HgetBL c Hc), lookup_replicate_2 in Hx by done. simpl in Hx.
  unfold Spec.column_totals_of in Hy.
  rewrite list_lookup_fmap, lookup_seq_lt in Hy by done. simpl in Hy.
  injection Hx as <-. injection Hy as <-. unfold column_sum.
  destruct Hcur as [Hlen _]. rewrite <-Hlen.
  apply foldl_lookup_seq. intros r row acc Hrow. f_equal.
  assert (Hget : get2 cur r c = row !! c) by (unfold get2; by rewrite Hrow).
  unfold cur in Hget. rewrite get2_imap in Hget. rewrite <-Hget.
  assert (Hr : (r < rows)%nat).
  { apply lookup_lt_Some in Hrow. lia. }
  destruct (shaped_get2 rows cols G r c HG Hr Hc) as [g ->]. done.
Qed.

End GeneralSimRun.

Section GeneralSimClaims.
Import Crossbar.
#[local] Open Scope float_scope.

Lemma loop_fails {S} (body : nat → S → option S) (l : list nat) (i : nat) (s : S) :
  i ∈ l → (∀ s, body i s = None) → loop body l s = None.
Proof.
  intros Hin Hi. revert s. induction l as [|j l IH]; intros s; [by apply elem_of_nil in Hin|].
  simpl. destruct (body j s) as [s'|] eqn:Hj; simpl; [|done].
  apply elem_of_cons in Hin as [->|Hin]; [by rewrite Hi in Hj|by apply IH].
Qed.

Lemma loop_invariant {S} (P : S → Prop) (body : nat → S → option S) (l : list nat)
    (s s' : S) :
  P s → (∀ i s s', i ∈ l → P s → body i s = Some s' → P s') →
  loop body l s = Some s' → P s'.
Proof.
  revert s. induction l as [|j l IH]; intros s Hs Hbody; simpl; [by intros [= <-]|].
  destruct (body j s) as [s1|] eqn:Hj; simpl; [|done].
  apply IH.
  - eapply Hbody; [apply list_elem_of_here|done|done].
  - intros i t t' Hi. apply Hbody. by apply list_elem_of_further.
Qed.

Lemma loop_total {S} (body : nat → S → option S) (l : list nat) (s : S) :
  (∀ i s, i ∈ l → is_Some (body i s)) → is_Some (loop body l s).
Proof.
  revert s. induction l as [|j l IH]; intros s Hbody; simpl; [by eexists|].
  destruct (Hbody j s) as [s1 ->]; [apply list_elem_of_here|]. simpl.
  apply IH. intros i t Hi. apply Hbody. by apply list_elem_of_further.
Qed.

Lemma max_current_run (rows cols : nat) (I : list (list float)) :
  shaped rows cols I →
  ∃ mx, CrossbarAdvanced.max_current rows cols I = Some mx
        ∧ (mx = 0 ∨ ∃ r c x, get2 I r c = Some x ∧ mx = PrimFloat.abs x).
Proof.
  intros HI. unfold CrossbarAdvanced.max_current.
  match goal with |- ∃ mx, loop ?body ?l ?s = _ ∧ _ =>
    destruct (loop_total body l s) as [mx Hmx] end.
  { intros r mx0 Hr%elem_of_seq. apply loop_total. intros c mx1 Hc%elem_of_seq.
    destruct (shaped_get2 rows cols I r c HI) as [x ->]; [lia|lia|]. by eexists. }
  exists mx. split; [done|].
  revert Hmx.
  apply (loop_invariant
           (λ m, m = 0 ∨ ∃ r c x, get2 I r c = Some x ∧ m = PrimFloat.abs x));
    [by left|].
  intros r mx0 mx1 _ Hmx0.
  apply (loop_invariant
           (λ m, m = 0 ∨ ∃ r c x, get2 I r c = Some x ∧ m = PrimFloat.abs x));
    [done|].
  intros c mx2 mx3 _ Hmx2.
  destruct (get2 I r c) as [x|] eqn:Hx; simpl; [|done]. intros [= <-].
  destruct (mx2 <? PrimFloat.abs x); [|done]. right. by exists r, c, x.
Qed.

Lemma sim_with_returns (RON ROFF : float) (rows cols : nat) (matrix : list (list cell))
    (drivenWL : list bool) (vDrive : float) :
  shaped rows cols matrix →
  is_Some (CrossbarAdvanced.sim_with RON ROFF rows cols matrix drivenWL vDrive).
Proof.
  intros Hm. unfold CrossbarAdvanced.sim_with.
  rewrite advanced_build_G_run by done. cbn [mbind option_bind].
  rewrite advanced_compute_currents_run by (by apply conductances_shaped).
  cbn [mbind option_bind].
  fold (Spec.cell_currents RON ROFF matrix drivenWL vDrive).
  destruct (max_current_run rows cols (Spec.cell_currents RON ROFF matrix drivenWL vDrive))
    as (mx & -> & _); [by apply cell_currents_shaped|].
  by eexists.
Qed.

(** X16. At every size: on a matrix of [rows] rows of [cols] cells the memo
    of [CrossbarAdvanced] returns, its conductances are 1/R_on, 1/R_off or
    0 by cell, each current is (V_row − 0) × conductance, each bit-line
    total is the row-by-row sum of its column, and [maxI] is 0 or the
    magnitude of one of the currents. *)
Theorem sim_at_any_size (RON ROFF : float) (rows cols : nat) (matrix : list (list cell))
    (drivenWL : list bool) (vDrive : float) :
  shaped rows cols matrix →
  ∃ memo,
    CrossbarAdvanced.sim_with RON ROFF rows cols matrix drivenWL vDrive = Some memo
    ∧ CrossbarAdvanced.G memo = Spec.conductances RON ROFF matrix
    ∧ CrossbarAdvanced.I memo = Spec.cell_currents RON ROFF matrix drivenWL vDrive
    ∧ CrossbarAdvanced.BL_total memo
      = Spec.column_totals_of cols (CrossbarAdvanced.I memo)
    ∧ (∀ r c cl, get2 matrix r c = Some cl →
         get2 (CrossbarAdvanced.G memo) r c = Some (spec_conductance RON ROFF cl)
         ∧ get2 (CrossbarAdvanced.I memo) r c
           = Some ((Spec.V_row drivenWL vDrive r - 0) * spec_conductance RON ROFF cl))
    ∧ (∀ c, (c < cols)%nat →
         CrossbarAdvanced.BL_total memo !! c
         = Some (column_sum (CrossbarAdvanced.I memo) c))
    ∧ (CrossbarAdvanced.maxI memo = 0
       ∨ ∃ r c x, get2 (CrossbarAdvanced.I memo) r c = Some x
                  ∧ CrossbarAdvanced.maxI memo = PrimFloat.abs x).
Proof.
  intros Hm. unfold CrossbarAdvanced.sim_with.
  rewrite advanced_build_G_run by done. cbn [mbind option_bind].
  rewrite advanced_compute_currents_run by (by apply conductances_shaped).
  cbn [mbind option_bind].
  fold (Spec.cell_currents RON ROFF matrix drivenWL vDrive).
  destruct (max_current_run rows cols (Spec.cell_currents RON ROFF matrix drivenWL vDrive))
    as (mx & -> & Hmx); [by apply cell_currents_shaped|].
  cbn [mbind option_bind]. eexists. split; [reflexivity|].
  cbn [CrossbarAdvanced.G CrossbarAdvanced.I CrossbarAdvanced.BL_total
       CrossbarAdvanced.maxI].
  split_and!; [done|done|done| | |done].
  - intros r c cl Hcl. unfold Spec.conductances at 1.
    by rewrite get2_fmap, get2_cell_currents, Hcl.
  - intros c Hc. unfold Spec.column_totals_of.
    by rewrite list_lookup_fmap, lookup_seq_lt.
Qed.

Lemma sim_at_any_size_witness :
  shaped 3 3 (replicate 3 (replicate 3 (Cell "ROFF" true)))
  ∧ ∃ memo,
      CrossbarAdvanced.sim_with CrossbarAdvanced.RON CrossbarAdvanced.ROFF 3 3
        (replicate 3 (replicate 3 (Cell "ROFF" true))) [true; false; false] 1 = Some memo
      ∧ CrossbarAdvanced.G memo
        = Spec.conductances CrossbarAdvanced.RON CrossbarAdvanced.ROFF
            (replicate 3 (replicate 3 (Cell "ROFF" true)))
      ∧ CrossbarAdvanced.I memo
        = Spec.cell_currents CrossbarAdvanced.RON CrossbarAdvanced.ROFF
            (replicate 3 (replicate 3 (Cell "ROFF" true))) [true; false; false] 1
      ∧ CrossbarAdvanced.BL_total memo
        = Spec.column_totals_of 3 (CrossbarAdvanced.I memo)
      ∧ (∀ r c cl, get2 (replicate 3 (replicate 3 (Cell "ROFF" true))) r c = Some cl →
           get2 (CrossbarAdvanced.G memo) r c
           = Some (spec_conductance CrossbarAdvanced.RON CrossbarAdvanced.ROFF cl)
           ∧ get2 (CrossbarAdvanced.I memo) r c
             = Some ((Spec.V_row [true; false; false] 1 r - 0)
                     * spec_conductance CrossbarAdvanced.RON CrossbarAdvanced.ROFF cl))
      ∧ (∀ c, (c < 3)%nat →
           CrossbarAdvanced.BL_total memo !! c
           = Some (column_sum (CrossbarAdvanced.I memo) c))
      ∧ (CrossbarAdvanced.maxI memo = 0
         ∨ ∃ r c x, get2 (CrossbarAdvanced.I memo) r c = Some x
                    ∧ CrossbarAdvanced.maxI memo = PrimFloat.abs x).
Proof.
  assert (Hm : shaped 3 3 (replicate 3 (replicate 3 (Cell "ROFF" true))))
    by (split; [reflexivity|repeat constructor]).
  split; [exact Hm|].
  exact (sim_at_any_size CrossbarAdvanced.RON CrossbarAdvanced.ROFF 3 3
           (replicate 3 (replicate 3 (Cell "ROFF" true))) [true; false; false] 1 Hm).
Defined.

(** X17. A missing cell makes the model throw: when the matrix has no cell
    at some (r, c) inside rows × cols, the memo of [CrossbarAdvanced]
    throws, and so does the effect of the app on a matrix that lacks one
    of its 4 × 4 cells. *)
Theorem missing_cell_throws (RON ROFF : float) (rows cols : nat)
    (matrix : list (list cell)) (drivenWL : list bool) (vDrive : float) (r c : nat) :
  (r < rows)%nat → (c < cols)%nat → get2 matrix r c = None →
  CrossbarAdvanced.sim_with RON ROFF rows cols matrix drivenWL vDrive = None
  ∧ (rows = 4%nat → cols = 4%nat →
     ∀ i, App.recompute_with RON ROFF i matrix vDrive = None).
Proof.
  intros Hr Hc Hcell.
  assert (Hbuild : CrossbarAdvanced.build_G RON ROFF rows cols matrix = None).
  { unfold CrossbarAdvanced.build_G.
    apply (loop_fails _ _ r); [apply elem_of_seq; lia|]. intros G.
    apply (loop_fails _ _ c); [apply elem_of_seq; lia|]. intros G'.
    by rewrite Hcell. }
  split.
  - unfold CrossbarAdvanced.sim_with. by rewrite Hbuild.
  - intros -> -> i. unfold App.recompute_with.
    by rewrite <-advanced_build_G, Hbuild.
Qed.

Lemma missing_cell_throws_witness :
  (1 < 2)%nat ∧ (1 < 2)%nat
  ∧ get2 [[Cell "ROFF" true; Cell "ROFF" true]; [Cell "ROFF" true]] 1 1 = None
  ∧ CrossbarAdvanced.sim_with CrossbarAdvanced.RON CrossbarAdvanced.ROFF 2 2
      [[Cell "ROFF" true; Cell "ROFF" true]; [Cell "ROFF" true]] [false; false] 1 = None
  ∧ (2%nat = 4%nat → 2%nat = 4%nat →
     ∀ i, App.recompute_with CrossbarAdvanced.RON CrossbarAdvanced.ROFF i
            [[Cell "ROFF" true; Cell "ROFF" true]; [Cell "ROFF" true]] 1 = None).
Proof.
  split; [lia|]. split; [lia|]. split; [reflexivity|].
  apply (missing_cell_throws CrossbarAdvanced.RON CrossbarAdvanced.ROFF 2 2
           [[Cell "ROFF" true; Cell "ROFF" true]; [Cell "ROFF" true]] [false; false] 1 1 1);
    [lia|lia|reflexivity].
Defined.

(** X18. [makeInitial] returns a matrix with [rows] rows whose first row
    has [cols] cells; without an [initial] prop, or with one of another
    size, it is the full rows × cols matrix of selected high-resistance
    cells, on which the memo returns.  Only the first row of [initial] is
    measured: a ragged [initial] is accepted as it is, and the memo then
    throws; an empty [initial] with zero rows makes [makeInitial] itself
    throw. *)
Theorem makeInitial_shapes (rows cols : nat) (initial : option (list (list cell))) :
  let fresh := replicate rows (replicate cols (Cell "ROFF" true)) in
  shaped rows cols fresh
  ∧ (∀ m, CrossbarAdvanced.makeInitial rows cols initial = Some m →
       length m = rows
       ∧ (∀ first, m !! 0%nat = Some first → length first = cols)
       ∧ (m = fresh ∨ initial = Some m))
  ∧ CrossbarAdvanced.makeInitial rows cols None = Some fresh
  ∧ (∀ init, length init ≠ rows →
       CrossbarAdvanced.makeInitial rows cols (Some init) = Some fresh)
  ∧ (∀ init first, length init = rows → init !! 0%nat = Some first →
       length first = cols →
       CrossbarAdvanced.makeInitial rows cols (Some init) = Some init)
  ∧ (∀ d v, is_Some (CrossbarAdvanced.sim rows cols fresh d v))
  ∧ (rows = 0%nat → CrossbarAdvanced.makeInitial rows cols (Some []) = None)
  ∧ CrossbarAdvanced.makeInitial 2 2
      (Some [[Cell "ROFF" true; Cell "ROFF" true]; [Cell "ROFF" true]])
    = Some [[Cell "ROFF" true; Cell "ROFF" true]; [Cell "ROFF" true]]
  ∧ (∀ d v, CrossbarAdvanced.sim 2 2
              [[Cell "ROFF" true; Cell "ROFF" true]; [Cell "ROFF" true]] d v = None).
Proof.
  intros fresh.
  assert (Hfresh : shaped rows cols fresh).
  { unfold fresh. split; [by rewrite length_replicate|].
    apply Forall_replicate. by rewrite length_replicate. }
  assert (Hfirst : ∀ first, fresh !! 0%nat = Some first → length first = cols).
  { intros first Hf. by apply (shaped_row rows cols fresh 0). }
  split; [done|]. split_and!.
  - intros m. unfold CrossbarAdvanced.makeInitial. fold fresh.
    destruct initial as [init|].
    2:{ intros [= <-]. split_and!; [by destruct Hfresh|done|by left]. }
    destruct (Nat.eqb_spec (length init) rows) as [Hlen|Hlen].
    2:{ intros [= <-]. split_and!; [by destruct Hfresh|done|by left]. }
    destruct (init !! 0%nat) as [first|] eqn:Hf; simpl; [|done].
    destruct (Nat.eqb_spec (length first) cols) as [Hc|Hc]; intros [= <-].
    + split_and!; [done| |by right]. intros first'. rewrite Hf. by intros [= <-].
    + split_and!; [by destruct Hfresh|done|by left].
  - done.
  - intros init Hlen. unfold CrossbarAdvanced.makeInitial. fold fresh.
    by destruct (Nat.eqb_spec (length init) rows).
  - intros init first Hlen Hf Hc. unfold CrossbarAdvanced.makeInitial.
    rewrite Hlen, Nat.eqb_refl, Hf. simpl. by rewrite Hc, Nat.eqb_refl.
  - intros d v. by apply sim_with_returns.
  - by intros ->.
  - reflexivity.
  - intros d v. unfold CrossbarAdvanced.sim, CrossbarAdvanced.sim_with.
    replace (CrossbarAdvanced.build_G CrossbarAdvanced.RON CrossbarAdvanced.ROFF 2 2
               [[Cell "ROFF" true; Cell "ROFF" true]; [Cell "ROFF" true]])
      with (@None (list (list float))); [done|].
    symmetry. apply (loop_fails _ _ 1%nat); [apply elem_of_seq; lia|]. intros G.
    by apply (loop_fails _ _ 1%nat); [apply elem_of_seq; lia|].
Qed.

End GeneralSimClaims.

Section Handlers.
Import Crossbar.

Lemma set2_set2 {A} (r c : nat) (x y : A) (m : list (list A)) :
  set2 r c x (set2 r c y m) = set2 r c x m.
Proof.
  unfold set2. apply list_eq. intros i. destruct (decide (i = r)) as [->|Hne].
  - rewrite !list_lookup_alter_eq. destruct (m !! r) as [row|]; simpl; [|done].
    by rewrite list_insert_insert_eq.
  - by rewrite !list_lookup_alter_ne.
Qed.

Lemma set2_same {A} (r c : nat) (x : A) (m : list (list A)) :
  get2 m r c = Some x → set2 r c x m = m.
Proof.
  unfold get2, set2. intros Hx. apply list_eq. intros i.
  destruct (decide (i = r)) as [->|Hne].
  - rewrite list_lookup_alter_eq. destruct (m !! r) as [row|]; simpl in *; [|done].
    by rewrite list_insert_id.
  - by rewrite list_lookup_alter_ne.
Qed.

(** X19. The two toggles of the crossbar, on a cell that exists: each
    changes that cell only and keeps the other field; toggling the
    selector twice restores the matrix; toggling the state gives ["RON"]
    exactly when the state was not ["RON"], so that toggling it twice
    restores the matrix if and only if the state was ["RON"] or ["ROFF"]
    (a filler cell in state ["INTER"] comes back as ["ROFF"]).  The
    handlers of [CrossbarAdvanced] are the same functions. *)
Theorem crossbar_toggles (r c : nat) (prev : list (list cell)) (cl : cell) :
  get2 prev r c = Some cl →
  ∃ s1 s2 m1 m2,
    toggleSelector r c prev = Some s1 ∧ toggleSelector r c s1 = Some s2
    ∧ get2 s1 r c = Some (Cell (state cl) (negb (selector cl)))
    ∧ s2 = prev
    ∧ toggleCrossbarState r c prev = Some m1 ∧ toggleCrossbarState r c m1 = Some m2
    ∧ get2 m1 r c
      = Some (Cell (if String.eqb (state cl) "RON" then "ROFF" else "RON") (selector cl))
    ∧ get2 m2 r c
      = Some (Cell (if String.eqb (state cl) "RON" then "RON" else "ROFF") (selector cl))
    ∧ (m2 = prev ↔ state cl = "RON" ∨ state cl = "ROFF")
    ∧ (∀ r' c', (r', c') ≠ (r, c) →
         get2 s1 r' c' = get2 prev r' c' ∧ get2 m1 r' c' = get2 prev r' c'
         ∧ get2 m2 r' c' = get2 prev r' c')
    ∧ CrossbarAdvanced.toggleSelector r c prev = Some s1
    ∧ CrossbarAdvanced.toggleCellState r c prev = Some m1.
Proof.
  intros Hcl. destruct cl as [st sel]. cbn [state selector].
  set (flipped := if String.eqb st "RON" then "ROFF" else "RON").
  set (back := if String.eqb st "RON" then "RON" else "ROFF").
  assert (Hback : (if String.eqb flipped "RON" then "ROFF" else "RON") = back).
  { unfold flipped, back. by destruct (String.eqb st "RON"). }
  exists (set2 r c (Cell st (negb sel)) prev), prev,
         (set2 r c (Cell flipped sel) prev), (set2 r c (Cell back sel) prev).
  assert (Hs1 : get2 (set2 r c (Cell st (negb sel)) prev) r c = Some (Cell st (negb sel)))
    by (by eapply get2_set2).
  assert (Hm1 : get2 (set2 r c (Cell flipped sel) prev) r c = Some (Cell flipped sel))
    by (by eapply get2_set2).
  assert (Hm2 : get2 (set2 r c (Cell back sel) prev) r c = Some (Cell back sel))
    by (by eapply get2_set2).
  split_and!.
  - unfold toggleSelector. by rewrite Hcl.
  - unfold toggleSelector. rewrite Hs1. cbn [mbind option_bind state selector].
    rewrite set2_set2, negb_involutive. f_equal. by apply set2_same.
  - done.
  - done.
  - unfold toggleCrossbarState. by rewrite Hcl.
  - unfold toggleCrossbarState. rewrite Hm1. cbn [mbind option_bind state selector].
    by rewrite set2_set2, Hback.
  - done.
  - done.
  - split.
    + intros Heq. rewrite Heq, Hcl in Hm2. injection Hm2 as Hst. unfold back in Hst.
      destruct (String.eqb_spec st "RON") as [->|_]; [by left|by right].
    + intros Hst. apply set2_same. rewrite Hcl. do 2 f_equal. unfold back.
      by destruct Hst as [->| ->].
  - intros r' c' Hne.
    assert (r ≠ r' ∨ c ≠ c') as Hne'.
    { destruct (decide (r = r')) as [->|]; [|by left].
      right. intros ->. by apply Hne. }
    by rewrite !get2_set2_ne.
  - unfold CrossbarAdvanced.toggleSelector. by rewrite Hcl.
  - unfold CrossbarAdvanced.toggleCellState. by rewrite Hcl.
Qed.

Lemma crossbar_toggles_witness :
  get2 (updateCrossbar "OR" 1 0 (Some 1%Z)) 0 2 = Some (Cell "INTER" true)
  ∧ ∃ s1 s2 m1 m2,
    toggleSelector 0 2 (updateCrossbar "OR" 1 0 (Some 1%Z)) = Some s1
    ∧ toggleSelector 0 2 s1 = Some s2
    ∧ get2 s1 0 2 = Some (Cell (state (Cell "INTER" true)) (negb (selector (Cell "INTER" true))))
    ∧ s2 = updateCrossbar "OR" 1 0 (Some 1%Z)
    ∧ toggleCrossbarState 0 2 (updateCrossbar "OR" 1 0 (Some 1%Z)) = Some m1
    ∧ toggleCrossbarState 0 2 m1 = Some m2
    ∧ get2 m1 0 2
      = Some (Cell (if String.eqb (state (Cell "INTER" true)) "RON" then "ROFF" else "RON")
                (selector (Cell "INTER" true)))
    ∧ get2 m2 0 2
      = Some (Cell (if String.eqb (state (Cell "INTER" true)) "RON" then "RON" else "ROFF")
                (selector (Cell "INTER" true)))
    ∧ (m2 = updateCrossbar "OR" 1 0 (Some 1%Z)
       ↔ state (Cell "INTER" true) = "RON" ∨ state (Cell "INTER" true) = "ROFF")
    ∧ (∀ r' c', (r', c') ≠ (0%nat, 2%nat) →
         get2 s1 r' c' = get2 (updateCrossbar "OR" 1 0 (Some 1%Z)) r' c'
         ∧ get2 m1 r' c' = get2 (updateCrossbar "OR" 1 0 (Some 1%Z)) r' c'
         ∧ get2 m2 r' c' = get2 (updateCrossbar "OR" 1 0 (Some 1%Z)) r' c')
    ∧ CrossbarAdvanced.toggleSelector 0 2 (updateCrossbar "OR" 1 0 (Some 1%Z)) = Some s1
    ∧ CrossbarAdvanced.toggleCellState 0 2 (updateCrossbar "OR" 1 0 (Some 1%Z)) = Some m1.
Proof.
  split; [reflexivity|].
  apply (crossbar_toggles 0 2 (updateCrossbar "OR" 1 0 (Some 1%Z)) (Cell "INTER" true)).
  reflexivity.
Defined.

Lemma length_pulse (v : bool) (indices : list Z) (prev : list bool) :
  length (App.pulse v indices prev) = length prev.
Proof.
  unfold App.pulse. revert prev. induction indices as [|i l IH]; intros prev; [done|].
  simpl. rewrite IH.
  destruct ((0 <=? i)%Z && (i <? Z.of_nat (length prev))%Z); [|done].
  by rewrite length_insert.
Qed.

Lemma pulse_lookup (v : bool) (indices : list Z) (prev : list bool) (k : nat) :
  App.pulse v indices prev !! k
  = if bool_decide (Z.of_nat k ∈ indices) && bool_decide (k < length prev)%nat
    then Some v else prev !! k.
Proof.
  unfold App.pulse. revert prev. induction indices as [|i l IH]; intros prev.
  { cbn [foldl]. by rewrite (bool_decide_eq_false_2 (_ ∈ [])) by apply not_elem_of_nil. }
  cbn [foldl]. rewrite IH. clear IH.
  set (next := if (0 <=? i)%Z && (i <? Z.of_nat (length prev))%Z
               then <[Z.to_nat i := v]> prev else prev).
  assert (Hlen : length next = length prev).
  { unfold next. destruct (_ && _); [apply length_insert|done]. }
  assert (Hnext : next !! k
                  = if bool_decide (Z.of_nat k = i) && bool_decide (k < length prev)%nat
                    then Some v else prev !! k).
  { unfold next. case_bool_decide as Hi; case_bool_decide as Hk; cbn [andb].
    - subst i.
      replace (0 <=? Z.of_nat k)%Z with true by (symmetry; apply Z.leb_le; lia).
      replace (Z.of_nat k <? Z.of_nat (length prev))%Z with true
        by (symmetry; apply Z.ltb_lt; lia).
      cbn [andb]. rewrite Nat2Z.id. by apply list_lookup_insert_eq.
    - subst i.
      replace (Z.of_nat k <? Z.of_nat (length prev))%Z with false
        by (symmetry; apply Z.ltb_ge; lia).
      by rewrite andb_false_r.
    - destruct ((0 <=? i)%Z && (i <? Z.of_nat (length prev))%Z) eqn:Hrange; [|done].
      apply list_lookup_insert_ne. intros Heq. apply Hi. rewrite <-Heq.
      apply andb_prop in Hrange as [H0%Z.leb_le _]. by rewrite Z2Nat.id.
    - destruct ((0 <=? i)%Z && (i <? Z.of_nat (length prev))%Z) eqn:Hrange; [|done].
      apply list_lookup_insert_ne. intros Heq. apply Hi. rewrite <-Heq.
      apply andb_prop in Hrange as [H0%Z.leb_le _]. by rewrite Z2Nat.id. }
  rewrite Hlen, Hnext. clear Hnext Hlen next.
  case_bool_decide as Hl; case_bool_decide as Hk; case_bool_decide as Hi;
    case_bool_decide as Hil; cbn [andb]; try done;
    exfalso; rewrite elem_of_cons in Hil; tauto.
Qed.

(** X20. [pulseWLs] keeps the number of word lines and ignores indices
    outside the array.  During the pulse every named row is driven and the
    others are as before; when the timer fires every named row is off and
    the others are as before: a row that was driven before the pulse is
    not driven after it. *)
Theorem pulseWLs_ends_low (indices : list Z) (prev : list bool) :
  length (App.pulseWLs indices prev).1 = length prev
  ∧ length (App.pulseWLs indices prev).2 = length prev
  ∧ (∀ k : nat,
       (App.pulseWLs indices prev).1 !! k
       = (if bool_decide (Z.of_nat k ∈ indices) && bool_decide (k < length prev)%nat
          then Some true else prev !! k)
       ∧ (App.pulseWLs indices prev).2 !! k
         = (if bool_decide (Z.of_nat k ∈ indices) && bool_decide (k < length prev)%nat
            then Some false else prev !! k))
  ∧ (∀ i, (i < 0 ∨ Z.of_nat (length prev) <= i)%Z →
       App.pulseWLs [i] prev = (prev, prev)).
Proof.
  unfold App.pulseWLs. cbn [fst snd]. split_and!.
  - apply length_pulse.
  - by rewrite !length_pulse.
  - intros k. split; [apply pulse_lookup|].
    rewrite pulse_lookup, length_pulse, pulse_lookup.
    by destruct (_ && _).
  - intros i Hi.
    assert (Hout : (0 <=? i)%Z && (i <? Z.of_nat (length prev))%Z = false).
    { apply andb_false_iff.
      destruct Hi; [left; apply Z.leb_gt|right; apply Z.ltb_ge]; lia. }
    unfold App.pulse. cbn [foldl]. by rewrite !Hout.
Qed.

(** X21. [toggleWL(r)], as every reader of [drivenWL] sees it (a missing
    entry reads as not driven): row [r] is flipped and no other row
    changes, also when [r] is past the end of the array, which then grows
    to [r + 1] entries; toggling twice gives back the word-line voltages
    of before. *)
Theorem toggleWL_flips_one_row (r : nat) (prev : list bool) :
  (∀ k, default false (CrossbarAdvanced.toggleWL r prev !! k)
        = if decide (k = r) then negb (default false (prev !! k))
          else default false (prev !! k))
  ∧ length (CrossbarAdvanced.toggleWL r prev) = Nat.max (length prev) (S r)
  ∧ (∀ v k, Spec.V_row (CrossbarAdvanced.toggleWL r (CrossbarAdvanced.toggleWL r prev)) v k
            = Spec.V_row prev v k).
Proof.
  assert (Hread : ∀ r prev k,
    default false (CrossbarAdvanced.toggleWL r prev !! k)
    = if decide (k = r) then negb (default false (prev !! k))
      else default false (prev !! k)).
  { clear. intros r prev k. unfold CrossbarAdvanced.toggleWL.
    destruct (Nat.ltb_spec r (length prev)) as [Hr|Hr].
    - destruct (decide (k = r)) as [->|Hne].
      + rewrite list_lookup_insert_eq by done. done.
      + by rewrite list_lookup_insert_ne.
    - destruct (decide (k = r)) as [->|Hne].
      + rewrite lookup_app_r by done.
        rewrite lookup_app_r by (rewrite length_replicate; lia).
        rewrite length_replicate, Nat.sub_diag.
        by rewrite (lookup_ge_None_2 prev r).
      + destruct (decide (k < length prev)%nat) as [Hk|Hk].
        * by rewrite lookup_app_l.
        * rewrite lookup_app_r by lia. rewrite (lookup_ge_None_2 prev k) by lia.
          destruct (decide (k < r)%nat) as [Hkr|Hkr].
          -- rewrite lookup_app_l by (rewrite length_replicate; lia).
             by rewrite lookup_replicate_2 by lia.
          -- rewrite lookup_ge_None_2; [done|].
             rewrite length_app, length_replicate. simpl. lia. }
  split_and!.
  - apply Hread.
  - unfold CrossbarAdvanced.toggleWL.
    destruct (Nat.ltb_spec r (length prev)) as [Hr|Hr].
    + rewrite length_insert. lia.
    + rewrite !length_app, length_replicate. simpl. lia.
  - intros v k. unfold Spec.V_row. rewrite !Hread.
    destruct (decide (k = r)); [by rewrite negb_involutive|done].
Qed.

(** X22. [computeTruth] knows exactly the gates of the catalog: it
    returns ['-'] if and only if the name is not an own key of [GATES],
    and for a catalog gate it returns 0 or 1 whatever integers the inputs
    are. *)
Theorem computeTruth_knows_the_catalog (gate_name : string) (a b : Z) :
  (computeTruth gate_name a b = TDash ↔ assoc gate_name catalog = None)
  ∧ (computeTruth gate_name a b = TDash ↔ ∀ g, GATES gate_name ≠ Own g)
  ∧ (computeTruth gate_name a b = TDash
     ∨ computeTruth gate_name a b = TNum 0 ∨ computeTruth gate_name a b = TNum 1).
Proof.
  assert (H1 : computeTruth gate_name a b = TDash ↔ assoc gate_name catalog = None).
  { unfold computeTruth, catalog. cbn [assoc].
    repeat (destruct (String.eqb gate_name _); [by split|]). by split. }
  split_and!.
  - done.
  - rewrite H1. unfold GATES. destruct (assoc gate_name catalog) as [g|].
    + split; [done|]. intros Hg. by destruct (Hg g).
    + split; [|done]. intros _ g. by destruct (bool_decide _).
  - unfold computeTruth.
    repeat (destruct (String.eqb gate_name _);
            [right; destruct (truthyZ _); ((by left) || (by right))|]).
    by left.
Qed.

(** X23. [toggleInput] on inputs that are bits: the named input is
    complemented and the other one kept, the inputs stay bits, toggling
    twice restores them, and a name other than A and B changes nothing.
    Toggling either input changes the output of XOR and of XNOR;
    toggling B never changes the output of NOT. *)
Theorem toggleInput_flips (name : string) (i : inputs) :
  (input_A i = 0 ∨ input_A i = 1)%Z → (input_B i = 0 ∨ input_B i = 1)%Z →
  App.toggleInput name (App.toggleInput name i) = i
  ∧ (input_A (App.toggleInput name i) = 0
     ∨ input_A (App.toggleInput name i) = 1)%Z
  ∧ (input_B (App.toggleInput name i) = 0
     ∨ input_B (App.toggleInput name i) = 1)%Z
  ∧ App.toggleInput "A" i = {| input_A := 1 - input_A i; input_B := input_B i |}
  ∧ App.toggleInput "B" i = {| input_A := input_A i; input_B := 1 - input_B i |}
  ∧ (name ≠ "A" → name ≠ "B" → App.toggleInput name i = i)
  ∧ (name = "A" ∨ name = "B" →
     ∀ g, g = "XOR" ∨ g = "XNOR" →
       computeTruth g (input_A (App.toggleInput name i)) (input_B (App.toggleInput name i))
       ≠ computeTruth g (input_A i) (input_B i))
  ∧ computeTruth "NOT" (input_A (App.toggleInput "B" i)) (input_B (App.toggleInput "B" i))
    = computeTruth "NOT" (input_A i) (input_B i).
Proof.
  destruct i as [a b]. cbn [input_A input_B]. intros Ha Hb.
  split_and!.
  - unfold App.toggleInput.
    destruct (String.eqb name "A") eqn:HA.
    { cbn [input_A input_B]. by destruct Ha as [-> | ->]. }
    destruct (String.eqb name "B") eqn:HB; [|done].
    cbn [input_A input_B]. by destruct Hb as [-> | ->].
  - unfold App.toggleInput.
    destruct (String.eqb name "A"); [cbn; destruct (truthyZ a); ((by left) || (by right))|].
    by destruct (String.eqb name "B").
  - unfold App.toggleInput.
    destruct (String.eqb name "A"); [done|].
    destruct (String.eqb name "B"); [cbn; destruct (truthyZ b); ((by left) || (by right))|done].
  - by destruct Ha as [-> | ->].
  - by destruct Hb as [-> | ->].
  - intros HA%String.eqb_neq HB%String.eqb_neq. unfold App.toggleInput.
    by rewrite HA, HB.
  - intros [-> | ->] g [-> | ->];
      destruct Ha as [-> | ->], Hb as [-> | ->]; by vm_compute.
  - by destruct Ha as [-> | ->].
Qed.

Lemma toggleInput_flips_witness :
  (input_A {| input_A := 1; input_B := 0 |} = 0
   ∨ input_A {| input_A := 1; input_B := 0 |} = 1)%Z
  ∧ (input_B {| input_A := 1; input_B := 0 |} = 0
     ∨ input_B {| input_A := 1; input_B := 0 |} = 1)%Z
  ∧ App.toggleInput "A" (App.toggleInput "A" {| input_A := 1; input_B := 0 |})
    = {| input_A := 1; input_B := 0 |}.
Proof.
  split; [right; reflexivity|]. split; [left; reflexivity|].
  apply (toggleInput_flips "A" {| input_A := 1; input_B := 0 |});
    [right; reflexivity|left; reflexivity].
Defined.

End Handlers.
